(** * AutoMatcher: the matching core of [data_processor.py]

    A shallow embedding of [DataProcessor.preprocess_text],
    [DataProcessor.get_status] and [DataProcessor.process_grouped_requests],
    together with the part of [gui.py] that drives them.

    Conventions of the embedding.
    - A Python [str] is the list of its code points ([N]); comparison is
      the lexicographic comparison of code points, as in CPython.
    - Relevance scores are exact rationals ([Q]).  The rounding, the
      infinities and the NaN of [float64] are outside the model.
    - Exceptions are values of [exn]; code that may raise returns
      [result A].
    - The Unicode tables behind [str.isalnum] and [str.lower], and the
      [rank_bm25] package, are not part of the repository: they are the
      variables of the sections below.  [RankBM25] models the package as
      far as the program depends on it: the two divisions of the
      constructor and the sum that [get_scores] accumulates, with the
      weight of a term as a parameter. *)

From Stdlib Require Import QArith Lqa.
From stdpp Require Import base list strings gmap sorting.

Set Warnings "-clear-no-such-hyp".

Open Scope N_scope.

(** ** Python strings *)

Abbreviation str := (list N).

(** Decoding of the UTF-8 bytes of a Rocq string literal into code points,
    so that literals of the source can be written as they are. *)
Fixpoint utf8_decode (bs : list N) : str :=
  match bs with
  | [] => []
  | b :: r =>
      if b <? 128 then b :: utf8_decode r
      else if b <? 224 then
        match r with
        | b1 :: r1 => ((b - 192) * 64 + (b1 - 128)) :: utf8_decode r1
        | [] => []
        end
      else if b <? 240 then
        match r with
        | b1 :: b2 :: r2 =>
            ((b - 224) * 4096 + (b1 - 128) * 64 + (b2 - 128)) :: utf8_decode r2
        | _ => []
        end
      else
        match r with
        | b1 :: b2 :: b3 :: r3 =>
            ((b - 240) * 262144 + (b1 - 128) * 4096 + (b2 - 128) * 64 + (b3 - 128))
              :: utf8_decode r3
        | _ => []
        end
  end.

Definition u (s : string) : str :=
  utf8_decode (map Ascii.N_of_ascii (String.list_ascii_of_string s)).

(** [str.isspace] on one character: the code points of general category Zs
    or of bidirectional class WS, B or S. *)
Definition isspace (c : N) : bool :=
  ((9 <=? c) && (c <=? 13)) || ((28 <=? c) && (c <=? 32))
  || (c =? 133) || (c =? 160) || (c =? 5760)
  || ((8192 <=? c) && (c <=? 8202))
  || (c =? 8232) || (c =? 8233) || (c =? 8239) || (c =? 8287) || (c =? 12288).

(** [s.startswith(p)] *)
Fixpoint startswith (s p : str) : bool :=
  match p, s with
  | [], _ => true
  | _ :: _, [] => false
  | c :: p', d :: s' => (c =? d) && startswith s' p'
  end.

(** [sub in s] *)
Fixpoint contains (s sub : str) : bool :=
  startswith s sub
  || match s with
     | [] => false
     | _ :: s' => contains s' sub
     end.

(** [s.replace(old, new)]: the occurrences of [old] are replaced from left
    to right and do not overlap.  [skip] counts the characters of a matched
    occurrence that remain to be dropped. *)
Fixpoint replace_from (old new s : str) (skip : nat) : str :=
  match s with
  | [] => []
  | c :: s' =>
      match skip with
      | S n => replace_from old new s' n
      | O =>
          if startswith s old
          then new ++ replace_from old new s' (length old - 1)
          else c :: replace_from old new s' 0
      end
  end.

Definition replace (s old new : str) : str :=
  match old with
  | [] => new ++ flat_map (fun c => c :: new) s
  | _ :: _ => replace_from old new s 0
  end.

(** [sep.join(parts)] *)
Fixpoint join (sep : str) (parts : list str) : str :=
  match parts with
  | [] => []
  | [p] => p
  | p :: rest => p ++ sep ++ join sep rest
  end.

(** [s.split()]: the maximal runs of non-whitespace characters.  [cur] is
    the current run, most recent character first. *)
Fixpoint split_from (s cur : str) : list str :=
  match s with
  | [] => match cur with [] => [] | _ :: _ => [rev cur] end
  | c :: s' =>
      if isspace c
      then match cur with
           | [] => split_from s' []
           | _ :: _ => rev cur :: split_from s' []
           end
      else split_from s' (c :: cur)
  end.

Definition split (s : str) : list str := split_from s [].

(** Comparison of two strings: code point by code point, a proper prefix
    being smaller. *)
Fixpoint str_ltb (a b : str) : bool :=
  match a, b with
  | _, [] => false
  | [], _ :: _ => true
  | x :: a', y :: b' => (x <? y) || ((x =? y) && str_ltb a' b')
  end.

Definition str_eqb (a b : str) : bool := bool_decide (a = b).

(** ** Text normalisation *)

(** [DataProcessor.replacements], in insertion order. *)
Definition replacements : list (str * str) :=
  [ (u "перманентный", u "перм"); (u "маркер", u "марк");
    (u "мультифора", u "файл"); (u "грузоподъемностью", u "груз");
    (u "пластиковый", u "пласт"); (u "металлический", u "мет");
    (u "тн", u "тонн"); (u "корректирующее", u "корр");
    (u "самоклеящаяся", u "самокл"); (u "гибкая", u "гибк");
    (u "регистратор", u "регистр"); (u "кальцинированная", u "кальц");
    (u "гост", u "стандарт"); (u "ассорти", u "разные цвета");
    (u "арочный", u "дуга") ].

Section Normalizer.
(** [str.isalnum] on one character and [str.lower] on a string. *)
Variable isalnum : N -> bool.
Variable lower : str -> str.

Definition keep (c : N) : bool := isalnum c || isspace c.

(** The loop [for k, v in self.replacements.items(): text = text.replace(k, v)]. *)
Definition apply_replacements (table : list (str * str)) (text : str) : str :=
  fold_left (fun t kv => replace t (fst kv) (snd kv)) table text.

Definition preprocess_text (text : str) : str :=
  let text := lower text in
  let cleaned := filter (fun c => keep c = true) text in
  apply_replacements replacements cleaned.
End Normalizer.

(** The characters used by the examples: Basic Latin and the Russian
    alphabet.  On these code points the two functions agree with CPython;
    the examples use no other character. *)
Module Ru.
Definition isalnum (c : N) : bool :=
  ((48 <=? c) && (c <=? 57)) || ((65 <=? c) && (c <=? 90))
  || ((97 <=? c) && (c <=? 122))
  || ((1040 <=? c) && (c <=? 1103)) || (c =? 1025) || (c =? 1105).

Definition lower_char (c : N) : N :=
  if ((65 <=? c) && (c <=? 90)) || ((1040 <=? c) && (c <=? 1071)) then c + 32
  else if c =? 1025 then 1105 else c.

Definition lower (s : str) : str := map lower_char s.

Definition preprocess_text : str -> str := preprocess_text isalnum lower.
End Ru.

(** ** Exceptions *)

Inductive exn : Type :=
| ValueError (msg : string)
| ZeroDivisionError (msg : string)
| IndexError (msg : string).

Inductive result (A : Type) : Type :=
| Ok (a : A)
| Raise (e : exn).
Arguments Ok {A} a.
Arguments Raise {A} e.

#[global] Instance result_ret : MRet result := fun A a => Ok a.
#[global] Instance result_bind : MBind result := fun A B f r =>
  match r with
  | Ok a => f a
  | Raise e => Raise e
  end.


(** ** Scores *)

Definition Qltb (x y : Q) : bool := negb (Qle_bool y x).

(** The built-ins [min(a, b)], [min(xs)] and [max(xs)]: the first of the
    smallest (largest) elements is returned. *)
Definition min2 (a b : Q) : Q := if Qltb b a then b else a.

Definition py_min (xs : list Q) : result Q :=
  match xs with
  | [] => Raise (ValueError "min() arg is an empty sequence")
  | x :: rest => Ok (fold_left (fun m y => if Qltb y m then y else m) rest x)
  end.

Definition py_max (xs : list Q) : result Q :=
  match xs with
  | [] => Raise (ValueError "max() arg is an empty sequence")
  | x :: rest => Ok (fold_left (fun m y => if Qltb m y then y else m) rest x)
  end.

(** Lines 131-137: min-max normalisation to the range 0-100. *)
Definition normalize_scores (scores : list Q) : result (list Q) :=
  min_score ← py_min scores;
  max_score ← py_max scores;
  mret (if Qeq_bool max_score min_score
        then (if Qltb 0 max_score
              then replicate (length scores) 100%Q
              else replicate (length scores) 0%Q)
        else map (fun s => ((s - min_score) / (max_score - min_score) * 100)%Q)
                 scores).

(** Lines 140-142: the loop over [enumerate(self.nomenclature_df['processed'])].
    Reading [normalized[idx]] past the end of the list raises. *)
Fixpoint prefix_bonus (prefix : str) (names : list str) (idx : nat)
    (normalized : list Q) : result (list Q) :=
  match names with
  | [] => Ok normalized
  | name :: rest =>
      if startswith name prefix
      then match normalized !! idx with
           | Some x =>
               prefix_bonus prefix rest (S idx)
                 (<[idx := min2 (x + 5)%Q 100%Q]> normalized)
           | None => Raise (IndexError "list index out of range")
           end
      else prefix_bonus prefix rest (S idx) normalized
  end.

(** ** The catalogue and the results *)

(** A row of [nomenclature_df]; [load_nomenclature_data] makes sure that
    the five columns exist.  The fields stand for the columns
    'Номенклатура', 'Код', 'Оформлено', 'ТоварПроизводителя' and
    'ОсновнойАссортимент'. *)
Record NomRow : Type := {
  Nomenklatura : str;
  Kod : str;
  Oformleno : str;
  TovarProizvoditelya : str;
  OsnovnoyAssortiment : str
}.

(** The values of the priority combo box of the GUI. *)
Inductive priority_column : Type :=
| ByOformleno
| ByTovarProizvoditelya
| ByOsnovnoyAssortiment.

Definition column (priority : priority_column) (row : NomRow) : str :=
  match priority with
  | ByOformleno => Oformleno row
  | ByTovarProizvoditelya => TovarProizvoditelya row
  | ByOsnovnoyAssortiment => OsnovnoyAssortiment row
  end.

(** One dictionary of the result list, with the keys 'Запрос',
    'Номенклатура', 'Код', 'Сходство' and 'Статус'. *)
Record MatchResult : Type := {
  r_Zapros : str;
  r_Nomenklatura : str;
  r_Kod : str;
  r_Shodstvo : Q;
  r_Status : str
}.

Definition Da : str := u "Да".
Definition Net : str := u "Нет".

Definition get_status (row : NomRow) : str :=
  let status := [] in
  let status :=
    if str_eqb (Oformleno row) Da then status ++ [u "Оформлено"] else status in
  let status :=
    if str_eqb (TovarProizvoditelya row) Da
    then status ++ [u "Товар Производителя"] else status in
  let status :=
    if str_eqb (OsnovnoyAssortiment row) Da
    then status ++ [u "Основной Ассортимент"] else status in
  match status with
  | [] => u "—"
  | _ :: _ => join (u ", ") status
  end.

(** ** Sorting *)

(** A stable sort: [before a b] says that [a] has to come strictly before
    [b]; elements that are not ordered by [before] keep their order. *)
Fixpoint insert_by {A} (before : A -> A -> bool) (x : A) (l : list A) : list A :=
  match l with
  | [] => [x]
  | y :: l' => if before y x then y :: insert_by before x l' else x :: y :: l'
  end.

Definition stable_sort {A} (before : A -> A -> bool) (l : list A) : list A :=
  foldr (insert_by before) [] l.

(** [temp_df['similarity'] = normalized] *)
Definition assign_similarity (df : list NomRow) (values : list Q)
  : result (list (NomRow * Q)) :=
  if decide (length values = length df)
  then Ok (zip df values)
  else Raise (ValueError "Length of values does not match length of index").

(** [sort_values([priority, 'similarity'], ascending=[False, False])].
    pandas sorts on several keys with a stable lexicographic sort in which
    a descending key has its ranks reversed, so that rows equal on both
    keys keep the order of the frame.  The flags are strings and are
    compared as strings. *)
Definition sorts_before (priority : priority_column) (a b : NomRow * Q) : bool :=
  str_ltb (column priority b.1) (column priority a.1)
  || (str_eqb (column priority a.1) (column priority b.1) && Qltb b.2 a.2).

Definition sort_values (priority : priority_column) (df : list (NomRow * Q))
  : list (NomRow * Q) :=
  stable_sort (sorts_before priority) df.

(** [head(n)]; [top_n] is a count (the spin box of the GUI ranges over
    1..10). *)
Definition head {A} (n : nat) (df : list A) : list A := take n df.

(** Lines 153-165: the loop that drops repeated codes. *)
Definition make_result (group_name : str) (row : NomRow * Q) : MatchResult :=
  {| r_Zapros := group_name;
     r_Nomenklatura := Nomenklatura row.1;
     r_Kod := Kod row.1;
     r_Shodstvo := row.2;
     r_Status := get_status row.1 |}.

Fixpoint filter_codes (top_n : nat) (group_name : str) (rows : list (NomRow * Q))
    (unique_codes : gset str) (group_results : list MatchResult)
  : list MatchResult :=
  match rows with
  | [] => group_results
  | row :: rest =>
      if decide (Kod row.1 ∈ unique_codes)
      then filter_codes top_n group_name rest unique_codes group_results
      else
        let group_results := group_results ++ [make_result group_name row] in
        let unique_codes := unique_codes ∪ {[ Kod row.1 ]} in
        if decide (top_n ≤ size unique_codes)%nat
        then group_results
        else filter_codes top_n group_name rest unique_codes group_results
  end.

(** Lines 144-165: the selection step for one query. *)
Definition select (priority : priority_column) (top_n : nat) (group_name : str)
    (temp_df : list (NomRow * Q)) : list MatchResult :=
  let sorted_df := head (top_n * 2) (sort_values priority temp_df) in
  filter_codes top_n group_name sorted_df ∅ [].

(** ** Request rows and grouping *)

(** A cell of [request_df]: [None] is a missing value (NaN). *)
Definition cell : Type := option str.

(** A row of [request_df], by column name. *)
Definition ReqRow : Type := string -> cell.

(** [astype(str)] on one cell, as pandas 2 does it: a missing value
    becomes the string 'nan'.  (pandas 3 keeps the value missing, and the
    join of line 104 then raises TypeError.)  A row is a total function of
    the column name, so a column that the frame lacks reads as a column
    of missing cells, where line 104 raises KeyError.  The statements
    about a whole run therefore speak of requests whose selected cells
    are present, or of the results of a call that returns. *)
Definition astype_str (c : cell) : str :=
  match c with
  | Some s => s
  | None => u "nan"
  end.

(** Line 104: [request_df[selected_columns].astype(str).agg(' | '.join, axis=1)] *)
Definition combined_key (selected_columns : list string) (row : ReqRow) : str :=
  join (u " | ") (map (fun col => astype_str (row col)) selected_columns).

(** The elements of a list without repetition, each at its first place. *)
Fixpoint first_occurrences (seen l : list str) : list str :=
  match l with
  | [] => []
  | x :: l' =>
      if decide (x ∈ seen) then first_occurrences seen l'
      else x :: first_occurrences (x :: seen) l'
  end.

(** [groupby('combined_key')]: the groups come in the sorted order of
    their keys, the rows of a group in the order of the frame. *)
Definition groupby (key : ReqRow -> str) (rows : list ReqRow)
  : list (str * list ReqRow) :=
  map (fun k => (k, filter (fun row => key row = k) rows))
      (stable_sort str_ltb (first_occurrences [] (map key rows))).

(** Lines 120-123 *)
Definition row_parts (selected_columns : list string) (row : ReqRow) : list str :=
  flat_map (fun col => match row col with
                       | Some v => [v]
                       | None => []
                       end) selected_columns.

Definition query_parts (selected_columns : list string) (group_df : list ReqRow)
  : list str :=
  flat_map (row_parts selected_columns) group_df.

(** [parts.index(x)] for an [x] of [parts] *)
Fixpoint index (parts : list str) (x : str) : nat :=
  match parts with
  | [] => 0
  | y :: rest => if decide (y = x) then 0 else S (index rest x)
  end.

(** [sorted(xs, key=k)] for a key of integers *)
Definition sorted_key {A} (key : A -> nat) (xs : list A) : list A :=
  stable_sort (fun a b => (key a <? key b)%nat) xs.

(** Line 126: [' '.join(sorted(set(query_parts), key=query_parts.index))].
    The iteration order of a Python set is not specified; the model
    iterates in the order of [elements]. *)
Definition set_of (parts : list str) : gset str := list_to_set parts.

Definition unique_query (parts : list str) : str :=
  join (u " ") (sorted_key (index parts) (elements (set_of parts))).

(** ** The matching run *)

(** Lines 130-142 for one query: the adjusted similarity of every entry. *)
Definition adjusted_scores (processed : list str) (processed_query : list str)
    (scores : list Q) : result (list Q) :=
  normalized ← normalize_scores scores;
  prefix_bonus (join (u " ") processed_query) processed 0 normalized.

(** The two frames of a [DataProcessor]; [None] before loading. *)
Record DataProcessor : Type := {
  nomenclature_df : option (list NomRow);
  request_df : option (list ReqRow)
}.

(** *** The host of the run ([gui.py])

    [NomenclatureApp.cancel_processing] runs on the GUI thread and sets
    [cancel_flag]; the worker thread runs [process_grouped_requests].
    [cancel_after = Some k] is the run in which the button is pressed
    when [k] groups have been processed. *)
Record NomenclatureApp : Type := {
  cancel_flag : bool;
  is_processing : bool
}.

Definition cancel_processing (app : NomenclatureApp) : NomenclatureApp :=
  {| cancel_flag := true; is_processing := false |}.

Definition gui_thread (cancel_after : option nat) (count : nat)
    (app : NomenclatureApp) : NomenclatureApp :=
  if decide (cancel_after = Some count) then cancel_processing app else app.

Section Matcher.
Variable isalnum : N -> bool.
Variable lower : str -> str.

(** The interface of [rank_bm25.BM25Okapi]: the constructor over the
    tokenised corpus and [get_scores], one score per document. *)
Variable bm25_index : Type.
Variable BM25Okapi : list (list str) -> result bm25_index.
Variable get_scores : bm25_index -> list str -> list Q.

(** Lines 117-165: the body of the loop over the groups. *)
Definition process_group (nomenclature_df : list NomRow) (processed : list str)
    (bm25 : bm25_index) (selected_columns : list string)
    (priority : priority_column) (top_n : nat)
    (group_name : str) (group_df : list ReqRow) : result (list MatchResult) :=
  let processed_query :=
    split (preprocess_text isalnum lower
             (unique_query (query_parts selected_columns group_df))) in
  let scores := get_scores bm25 processed_query in
  normalized ← adjusted_scores processed processed_query scores;
  temp_df ← assign_similarity nomenclature_df normalized;
  mret (select priority top_n group_name temp_df).

(** Lines 112-170: [results.extend(group_results)] for every group.  The
    default [update_progress] does nothing, the one installed by the GUI
    puts a percentage into a queue. *)
Fixpoint process_groups (nomenclature_df : list NomRow) (processed : list str)
    (bm25 : bm25_index) (selected_columns : list string)
    (priority : priority_column) (top_n : nat)
    (grouped : list (str * list ReqRow)) (results : list MatchResult)
  : result (list MatchResult) :=
  match grouped with
  | [] => Ok results
  | (group_name, group_df) :: rest =>
      group_results ← process_group nomenclature_df processed bm25
                        selected_columns priority top_n group_name group_df;
      process_groups nomenclature_df processed bm25 selected_columns
        priority top_n rest (results ++ group_results)
  end.

Definition process_grouped_requests (self : DataProcessor)
    (selected_columns : list string) (priority : priority_column)
    (top_n : nat) : result (list MatchResult) :=
  match request_df self, nomenclature_df self with
  | Some requests, Some nomenclature =>
      let grouped := groupby (combined_key selected_columns) requests in
      let processed :=
        map (fun row => preprocess_text isalnum lower (Nomenklatura row))
            nomenclature in
      let tokenized_names := map split processed in
      bm25 ← BM25Okapi tokenized_names;
      process_groups nomenclature processed bm25 selected_columns
        priority top_n grouped []
  | _, _ => Raise (ValueError "Данные не загружены")
  end.

(** The loop of [process_groups] interleaved with the GUI thread: the
    body of the loop reads no field of the application. *)
Fixpoint hosted_groups (nomenclature_df : list NomRow) (processed : list str)
    (bm25 : bm25_index) (selected_columns : list string)
    (priority : priority_column) (top_n : nat)
    (cancel_after : option nat) (count : nat) (app : NomenclatureApp)
    (grouped : list (str * list ReqRow)) (results : list MatchResult)
  : result (NomenclatureApp * list MatchResult) :=
  let app := gui_thread cancel_after count app in
  match grouped with
  | [] => Ok (app, results)
  | (group_name, group_df) :: rest =>
      group_results ← process_group nomenclature_df processed bm25
                        selected_columns priority top_n group_name group_df;
      hosted_groups nomenclature_df processed bm25 selected_columns
        priority top_n cancel_after (S count) app rest
        (results ++ group_results)
  end.

(** [NomenclatureApp.run_processing] up to the formatting of the
    results, started by [process_request_async] with both flags reset. *)
Definition run_processing (self : DataProcessor)
    (selected_columns : list string) (priority : priority_column)
    (top_n : nat) (cancel_after : option nat)
  : result (NomenclatureApp * list MatchResult) :=
  let app := {| cancel_flag := false; is_processing := true |} in
  match request_df self, nomenclature_df self with
  | Some requests, Some nomenclature =>
      let grouped := groupby (combined_key selected_columns) requests in
      let processed :=
        map (fun row => preprocess_text isalnum lower (Nomenklatura row))
            nomenclature in
      let tokenized_names := map split processed in
      bm25 ← BM25Okapi tokenized_names;
      hosted_groups nomenclature processed bm25 selected_columns
        priority top_n cancel_after 0 app grouped []
  | _, _ => Raise (ValueError "Данные не загружены")
  end.
End Matcher.

(** ** The index of [rank_bm25]

    [rank_bm25] is a dependency of the program, not part of it.  Its
    [BM25Okapi] is modelled after the package: the index keeps the
    statistics of the tokenised corpus, here the corpus itself.  The
    constructor computes [avgdl = num_doc / corpus_size], which divides
    by zero on a corpus without document, and
    [average_idf = idf_sum / len(idf)], which divides by zero when no
    document has a token.  [get_scores] starts from
    [np.zeros(corpus_size)] and adds, for every token [q] of the query,
    the weight of [q] in every document.  That weight is a product of a
    logarithm ([idf]) and a term frequency; it is the parameter
    [term_weight]. *)
Module RankBM25.
Definition bm25_index : Type := list (list str).

Definition BM25Okapi (corpus : list (list str)) : result bm25_index :=
  match corpus with
  | [] => Raise (ZeroDivisionError "division by zero")
  | _ :: _ =>
      match concat corpus with
      | [] => Raise (ZeroDivisionError "division by zero")
      | _ :: _ => Ok corpus
      end
  end.

Section Weights.
Variable term_weight : bm25_index -> str -> list str -> Q.

Definition get_scores (bm25 : bm25_index) (query : list str) : list Q :=
  fold_left (fun score q => zip_with Qplus score (map (term_weight bm25 q) bm25))
            query (replicate (length bm25) 0%Q).
End Weights.
End RankBM25.

(** ** A rational index for the examples

    [rank_bm25] weighs a term with a logarithm, which has no rational
    value.  The examples run on the index above with the number of
    occurrences of the token in the document as its weight.  The examples
    only use queries without tokens, for which the weights play no
    part. *)
Module TermCount.
Definition bm25_index : Type := RankBM25.bm25_index.

Definition BM25Okapi (corpus : list (list str)) : result bm25_index :=
  RankBM25.BM25Okapi corpus.

Definition term_weight (q : str) (doc : list str) : Q :=
  inject_Z (Z.of_nat (length (filter (fun t => t = q) doc))).

Definition get_scores (bm25 : bm25_index) (query : list str) : list Q :=
  RankBM25.get_scores (fun _ => term_weight) bm25 query.

Definition process_grouped_requests :=
  process_grouped_requests Ru.isalnum Ru.lower bm25_index BM25Okapi get_scores.

Definition run_processing :=
  run_processing Ru.isalnum Ru.lower bm25_index BM25Okapi get_scores.
End TermCount.

(** ** Examples *)

(** A request row given by its cells. *)
Fixpoint row_of (cells : list (string * str)) : ReqRow :=
  fun col =>
    match cells with
    | [] => None
    | (c, v) :: rest => if decide (c = col) then Some v else row_of rest col
    end.

Definition catalog_2 : list NomRow :=
  [ {| Nomenklatura := u "Перманентный маркер черный"; Kod := u "C1";
       Oformleno := Da; TovarProizvoditelya := Net;
       OsnovnoyAssortiment := Net |};
    {| Nomenklatura := u "Маркер для доски"; Kod := u "C2";
       Oformleno := Net; TovarProizvoditelya := Net;
       OsnovnoyAssortiment := Net |} ].

Definition catalog_2_processed : list str :=
  map (fun row => Ru.preprocess_text (Nomenklatura row)) catalog_2.

Definition catalog_2_index : TermCount.bm25_index :=
  map split catalog_2_processed.


(** A catalogue whose names have no token, and a request without
    token. *)
Definition tokenless_catalog : list NomRow :=
  [ {| Nomenklatura := u "!!!"; Kod := u "C1";
       Oformleno := Da; TovarProizvoditelya := Net;
       OsnovnoyAssortiment := Net |};
    {| Nomenklatura := u "---"; Kod := u "C2";
       Oformleno := Net; TovarProizvoditelya := Net;
       OsnovnoyAssortiment := Net |} ].

Definition tokenless_request : DataProcessor :=
  {| nomenclature_df := Some tokenless_catalog;
     request_df := Some [row_of [("a"%string, u "?")]] |}.

Definition two_requests : DataProcessor :=
  {| nomenclature_df := Some catalog_2;
     request_df := Some [ row_of [("a"%string, u "?")];
                          row_of [("a"%string, u "!")] ] |}.

(** The result for the second entry of [catalog_2] at the similarity 5. *)
Definition board_marker_for (group_name : str) : MatchResult :=
  {| r_Zapros := group_name;
     r_Nomenklatura := u "Маркер для доски";
     r_Kod := u "C2";
     r_Shodstvo := 5%Q;
     r_Status := u "—" |}.

(** ** Loading the request ([load_request_data], [find_header_row]) *)

(** A frame read from a sheet: its rows, each a list of cells. *)
Abbreviation frame := (list (list cell)).

(** [pd.notna] on one cell *)
Definition notna (c : cell) : bool :=
  match c with
  | Some _ => true
  | None => false
  end.

(** The cell in row [i] and column [j]. *)
Definition cell_at (df : frame) (i j : nat) : option cell :=
  row ← df !! i; row !! j.

Section HeaderRow.
Variable lower : str -> str.

(** ['товар' in str(cell).lower()]; [str] of a missing value is 'nan'. *)
Definition mentions_tovar (c : cell) : bool :=
  contains (lower (astype_str c)) (u "товар").

(** [any(... for cell in row)] *)
Definition row_matches (row : list cell) : bool := existsb mentions_tovar row.

(** Lines 197-200: the loop over [df.iterrows()], [idx] being the label of
    the row in a frame read without header. *)
Fixpoint find_header_row_from (df : frame) (idx : nat) : nat :=
  match df with
  | [] => 0
  | row :: rest =>
      if row_matches row then idx else find_header_row_from rest (S idx)
  end.

Definition find_header_row (df : frame) : nat := find_header_row_from df 0.

(** Lines 181-182: the header is looked for in the frame read with
    [nrows=10]. *)
Definition header_row_of_sheet (sheet : frame) : nat :=
  find_header_row (head 10 sheet).
End HeaderRow.

(** [dropna(how='all')]: the rows whose cells are all missing are dropped. *)
Definition dropna_all (df : frame) : frame :=
  filter (fun row => existsb notna row = true) df.

(** [ffill()]: a missing cell takes the value of the cell above it in the
    frame filled so far; [last] is the row above. *)
Fixpoint fill_row (last row : list cell) : list cell :=
  match row with
  | [] => []
  | c :: row' =>
      (match c with
       | Some _ => c
       | None => match last with
                 | above :: _ => above
                 | [] => None
                 end
       end) :: fill_row (tail last) row'
  end.

Fixpoint ffill_from (last : list cell) (df : frame) : frame :=
  match df with
  | [] => []
  | row :: rest =>
      let filled := fill_row last row in
      filled :: ffill_from filled rest
  end.

Definition ffill (df : frame) : frame := ffill_from [] df.

(** Line 190: [.dropna(how='all').ffill()] *)
Definition clean_request_frame (df : frame) : frame := ffill (dropna_all df).

(** ** Loading the catalogue ([load_nomenclature_data]) *)

(** A frame by columns: the names in order, each with its values. *)
Abbreviation columns := (list (string * list str)).

Definition required_cols : list string :=
  [ "Номенклатура"; "Код"; "Оформлено"; "ТоварПроизводителя";
    "ОсновнойАссортимент" ]%string.

(** [df[col]] *)
Definition column_values (col : string) (df : columns) : option (list str) :=
  (fun found => found.2.2) <$> list_find (fun kv => kv.1 = col) df.

(** Lines 60-64: a required column that the frame of [nrows] rows lacks is
    appended with the value 'Нет' in every row. *)
Definition add_default_column (nrows : nat) (df : columns) (col : string)
  : columns :=
  if decide (col ∈ df.*1) then df else df ++ [(col, replicate nrows Net)].

Definition add_default_columns (nrows : nat) (df : columns) : columns :=
  fold_left (add_default_column nrows) required_cols df.

(** ** The three flags of an entry *)

Definition is_da (flag : str) : bool := str_eqb flag Da.

Definition flags (row : NomRow) : bool * bool * bool :=
  (is_da (Oformleno row), is_da (TovarProizvoditelya row),
   is_da (OsnovnoyAssortiment row)).

(** ** Progress ([update_progress]) *)

(** The callback installed by [NomenclatureApp.run_processing]:
    [progress_queue.put((current / total) * 100)]. *)
Definition gui_update_progress (current total : nat) (progress_queue : list Q)
  : list Q :=
  progress_queue
  ++ [(inject_Z (Z.of_nat current) / inject_Z (Z.of_nat total) * 100)%Q].

(** [DataProcessor.update_progress]: [pass] *)
Definition update_progress_pass {W} (current total : nat) (world : W) : W :=
  world.

Section Progress.
Variable isalnum : N -> bool.
Variable lower : str -> str.
Variable bm25_index : Type.
Variable get_scores : bm25_index -> list str -> list Q.
Context {W : Type}.
Variable update_progress : nat -> nat -> W -> W.

(** Lines 113-170 with the callback: [enumerate(grouped)] and, after the
    results of a group have been added,
    [self.update_progress(group_idx + 1, total_groups)].  [world] is the
    state that the callback acts on. *)
Fixpoint process_groups_progress (nomenclature_df : list NomRow)
    (processed : list str) (bm25 : bm25_index)
    (selected_columns : list string) (priority : priority_column)
    (top_n : nat) (total_groups group_idx : nat)
    (grouped : list (str * list ReqRow)) (results : list MatchResult)
    (world : W) : W * result (list MatchResult) :=
  match grouped with
  | [] => (world, Ok results)
  | (group_name, group_df) :: rest =>
      match process_group isalnum lower bm25_index get_scores nomenclature_df
              processed bm25 selected_columns priority top_n group_name
              group_df with
      | Ok group_results =>
          process_groups_progress nomenclature_df processed bm25
            selected_columns priority top_n total_groups (S group_idx) rest
            (results ++ group_results)
            (update_progress (S group_idx) total_groups world)
      | Raise e => (world, Raise e)
      end
  end.
End Progress.

(** ** Tooltips ([tooltip.py]) *)

(** The windows of the toolkit: the identifiers of the [Toplevel]s that
    exist, and the next identifier. *)
Record Tk : Type := {
  toplevels : list nat;
  next_toplevel : nat
}.

(** A [ToolTip]: [tip_window] is [None] or the window shown. *)
Record ToolTip : Type := {
  tip_window : option nat
}.

Definition show_tip (st : ToolTip * Tk) : ToolTip * Tk :=
  match tip_window st.1 with
  | Some _ => st
  | None =>
      let w := next_toplevel st.2 in
      ({| tip_window := Some w |},
       {| toplevels := w :: toplevels st.2; next_toplevel := S w |})
  end.

Definition hide_tip (st : ToolTip * Tk) : ToolTip * Tk :=
  match tip_window st.1 with
  | Some w =>
      ({| tip_window := None |},
       {| toplevels := filter (fun w' => w' <> w) (toplevels st.2);
          next_toplevel := next_toplevel st.2 |})
  | None => ({| tip_window := None |}, st.2)
  end.

(** The events bound by [ToolTip.__init__]. *)
Inductive tip_event : Type :=
| Enter
| Leave.

Definition handle (st : ToolTip * Tk) (ev : tip_event) : ToolTip * Tk :=
  match ev with
  | Enter => show_tip st
  | Leave => hide_tip st
  end.

(** ** Definitions used in the statements *)

(** For a sort by [before]: [a] may stand in front of [b]. *)
Definition not_after {A} (before : A -> A -> bool) (a b : A) : Prop :=
  before b a = false.

(** The rows of a frame whose code has not been seen before. *)
Fixpoint first_by_code (seen : list str) (rows : list (NomRow * Q))
  : list (NomRow * Q) :=
  match rows with
  | [] => []
  | row :: rest =>
      if decide (Kod row.1 ∈ seen) then first_by_code seen rest
      else row :: first_by_code (Kod row.1 :: seen) rest
  end.

Definition in_range (x : Q) : Prop := (0 <= x <= 100)%Q.

(** The bonus of one entry: 5 more, at most 100, when the processed name
    starts with the query. *)
Definition bonus (prefix name : str) (x : Q) : Q :=
  if startswith name prefix then min2 (x + 5)%Q 100%Q else x.

(** What a group that is processed without exception contributes. *)
Definition group_part (nomenclature : list NomRow) (top_n : nat)
    (g : str * list ReqRow) (part : list MatchResult) : Prop :=
  (length part <= top_n)%nat
  /\ Forall (fun r =>
       r_Zapros r = g.1
       /\ in_range (r_Shodstvo r)
       /\ exists row, row ∈ nomenclature
            /\ r_Nomenklatura r = Nomenklatura row /\ r_Kod r = Kod row
            /\ r_Status r = get_status row) part.

(** The window of a tooltip, if it shows one. *)
Definition own_window (tip : ToolTip) : list nat :=
  match tip_window tip with
  | Some w => [w]
  | None => []
  end.

(** Three rows of a sheet: an empty one, the one with the titles, and one
    line of the request. *)
Definition sheet_2 : frame :=
  [ [None; None]; [Some (u "Товар"); Some (u "Количество")];
    [Some (u "Маркер"); Some (u "2")] ].

(** A column with a value, two gaps, and a value. *)
Definition gaps_4 : frame :=
  [ [None; Some (u "A")]; [Some (u "x"); None]; [None; None];
    [Some (u "y"); Some (u "B")] ].

(** Lines 108-109: the column 'processed' and [tokenized_names]. *)
Definition processed_names (isalnum : N -> bool) (lower : str -> str)
    (nomenclature : list NomRow) : list str :=
  map (fun row => preprocess_text isalnum lower (Nomenklatura row)) nomenclature.

Definition tokenized_names (isalnum : N -> bool) (lower : str -> str)
    (nomenclature : list NomRow) : list (list str) :=
  map split (processed_names isalnum lower nomenclature).

(** The catalogue with the similarity 5 at every entry. *)
Definition at_similarity_5 (nomenclature : list NomRow) : list (NomRow * Q) :=
  zip nomenclature (replicate (length nomenclature) 5%Q).

(** * Properties *)

(** ** Strings *)

Section StringFacts.
Implicit Types s old new : str.

Lemma startswith_nil s : startswith s [] = true.
Proof. by destruct s. Qed.

Lemma contains_cons_false c s old :
  contains (c :: s) old = false ->
  startswith (c :: s) old = false /\ contains s old = false.
Proof. cbn [contains]. by intros [? ?]%orb_false_iff. Qed.

(** A string without occurrence of [old] is left as it is. *)
Lemma replace_from_absent old new s :
  contains s old = false -> replace_from old new s 0 = s.
Proof.
  induction s as [|c s IH]; [done|].
  intros [Hhd Htl]%contains_cons_false.
  cbn [replace_from]. rewrite Hhd. f_equal. by apply IH.
Qed.

Lemma replace_absent s old new :
  contains s old = false -> replace s old new = s.
Proof.
  destruct old as [|k old].
  - destruct s; discriminate.
  - apply replace_from_absent.
Qed.

(** The characters of the result come from the string or from [new]. *)
Lemma replace_from_Forall (P : N -> Prop) old new s skip :
  Forall P s -> Forall P new -> Forall P (replace_from old new s skip).
Proof.
  intros Hs Hnew. revert skip.
  induction Hs as [|c s Hc Hs IH]; intros skip; [constructor|].
  cbn [replace_from]. destruct skip as [|n]; [|apply IH].
  destruct (startswith (c :: s) old).
  - apply Forall_app. split; [done|apply IH].
  - constructor; [done|apply IH].
Qed.

Lemma replace_Forall (P : N -> Prop) s old new :
  Forall P s -> Forall P new -> Forall P (replace s old new).
Proof.
  intros Hs Hnew. destruct old as [|k old]; [|by apply replace_from_Forall].
  cbn [replace]. apply Forall_app. split; [done|].
  induction Hs as [|c s Hc Hs IH]; [constructor|].
  cbn [flat_map]. constructor; [done|].
  apply Forall_app. by split.
Qed.

(** A string of whitespace has no token and contains no string that
    starts with another character. *)
Lemma split_from_whitespace s :
  forallb isspace s = true -> split_from s [] = [].
Proof.
  induction s as [|c s IH]; [done|].
  cbn [forallb split_from]. intros [Hc Hs]%andb_true_iff.
  rewrite Hc. by apply IH.
Qed.

Lemma contains_whitespace s c old :
  forallb isspace s = true -> isspace c = false ->
  contains s (c :: old) = false.
Proof.
  intros Hs Hc. induction s as [|d s IH]; [done|].
  cbn [forallb] in Hs. apply andb_true_iff in Hs as [Hd Hs].
  cbn [contains startswith]. rewrite (IH Hs), orb_false_r.
  destruct (N.eqb_spec c d) as [->|]; [congruence|done].
Qed.
End StringFacts.

(** ** Text normalisation *)

Example preprocess_marker :
  Ru.preprocess_text (u "Перманентный МАРКЕР, черный!") = u "перм марк черный".
Proof. vm_compute. reflexivity. Qed.

Section NormalizerFacts.
Variable isalnum : N -> bool.
Variable lower : str -> str.

Lemma apply_replacements_absent table s :
  forallb (fun kv => negb (contains s kv.1)) table = true ->
  apply_replacements table s = s.
Proof.
  induction table as [|[k v] table IH]; [done|].
  cbn [forallb apply_replacements fold_left fst snd].
  intros [Hk Htable]%andb_true_iff.
  apply negb_true_iff in Hk. rewrite (replace_absent _ _ _ Hk).
  by apply IH.
Qed.

Lemma apply_replacements_Forall (P : N -> Prop) table s :
  Forall (fun kv => Forall P kv.2) table ->
  Forall P s -> Forall P (apply_replacements table s).
Proof.
  intros Htable. revert s.
  induction Htable as [|[k v] table Hv Htable IH]; intros s Hs; [done|].
  cbn [apply_replacements fold_left fst snd]. apply IH.
  by apply replace_Forall.
Qed.

Lemma filter_keep_id s :
  Forall (fun c => keep isalnum c = true) s ->
  filter (fun c => keep isalnum c = true) s = s.
Proof.
  induction 1 as [|c s Hc Hs IH]; [done|].
  rewrite filter_cons, decide_True by done. by f_equal.
Qed.

Lemma whitespace_keep s :
  forallb isspace s = true -> Forall (fun c => keep isalnum c = true) s.
Proof.
  intros Hs. apply Forall_forall. intros c Hc.
  rewrite forallb_forall in Hs. unfold keep.
  rewrite (Hs c), orb_true_r; [done|]. by apply list_elem_of_In.
Qed.

Lemma preprocess_text_keep x :
  Forall (fun kv => Forall (fun c => keep isalnum c = true) kv.2) replacements ->
  Forall (fun c => keep isalnum c = true) (preprocess_text isalnum lower x).
Proof.
  intros Hv. unfold preprocess_text.
  apply apply_replacements_Forall; [done|].
  apply Forall_forall. by intros c [Hc _]%list_elem_of_filter.
Qed.

(** No key of the table starts with a whitespace character. *)
Lemma keys_start_with_letter :
  forallb (fun kv => match kv.1 with
                     | c :: _ => negb (isspace c)
                     | [] => false
                     end) replacements = true.
Proof. vm_compute. reflexivity. Qed.

Lemma replacements_absent_whitespace s :
  forallb isspace s = true ->
  forallb (fun kv => negb (contains s kv.1)) replacements = true.
Proof.
  intros Hs. pose proof keys_start_with_letter as Hkeys.
  rewrite forallb_forall in Hkeys. apply forallb_forall.
  intros [k v] Hin. specialize (Hkeys _ Hin). cbn [fst] in *.
  destruct k as [|c k]; [discriminate|].
  apply negb_true_iff in Hkeys. apply negb_true_iff.
  by apply contains_whitespace.
Qed.

(** C9, as amended: a string of whitespace characters only (the empty
    string among them) that lowercasing leaves alone is returned
    unchanged by [preprocess_text], because whitespace passes the filter
    and no abbreviation applies; it is not emptied, only its list of
    tokens is empty. *)
Theorem preprocess_text_whitespace_unchanged (x : str) :
  forallb isspace x = true ->
  lower x = x ->
  preprocess_text isalnum lower x = x
  /\ split (preprocess_text isalnum lower x) = []
  /\ (preprocess_text isalnum lower x = [] <-> x = []).
Proof.
  intros Hws Hlow.
  assert (preprocess_text isalnum lower x = x) as Heq.
  { unfold preprocess_text. rewrite Hlow.
    rewrite filter_keep_id by by apply whitespace_keep.
    apply apply_replacements_absent.
    by apply replacements_absent_whitespace. }
  rewrite Heq. split; [done|]. split; [|done].
  by apply split_from_whitespace.
Qed.

(** C7, as amended: normalising twice is the same as normalising once
    whenever the text normalised once is already lowercase and contains
    no key of the abbreviation table (the values of the table being
    made of characters that the filter keeps). *)
Theorem preprocess_text_idempotent_without_keys (x : str) :
  let y := preprocess_text isalnum lower x in
  lower y = y ->
  forallb (fun kv => forallb (keep isalnum) kv.2) replacements = true ->
  forallb (fun kv => negb (contains y kv.1)) replacements = true ->
  preprocess_text isalnum lower y = y.
Proof.
  intros y Hlow Hvalues Hkeys.
  assert (Forall (fun c => keep isalnum c = true) y) as Hy.
  { apply preprocess_text_keep. apply Forall_forall. intros kv Hkv.
    rewrite forallb_forall in Hvalues.
    apply list_elem_of_In, Hvalues in Hkv.
    apply Forall_forall. intros c Hc.
    rewrite forallb_forall in Hkv. by apply Hkv, list_elem_of_In. }
  unfold preprocess_text at 1. rewrite Hlow, (filter_keep_id _ Hy).
  by apply apply_replacements_absent.
Qed.
End NormalizerFacts.

(** C9: a single space is whitespace only, and [preprocess_text] returns
    it as it is, not the empty string. *)
Lemma preprocess_text_space_not_empty :
  forallb isspace (u " ") = true
  /\ Ru.preprocess_text (u " ") = u " "
  /\ Ru.preprocess_text (u " ") <> [].
Proof. vm_compute. repeat split; discriminate. Qed.

Lemma preprocess_text_whitespace_unchanged_witness :
  preprocess_text Ru.isalnum Ru.lower (u "  ") = u "  "
  /\ split (preprocess_text Ru.isalnum Ru.lower (u "  ")) = []
  /\ (preprocess_text Ru.isalnum Ru.lower (u "  ") = [] <-> u "  " = []).
Proof.
  apply (preprocess_text_whitespace_unchanged Ru.isalnum Ru.lower (u "  "));
    vm_compute; reflexivity.
Defined.

(** C7: 'маркерер' is normalised to 'маркер', which is normalised to
    'марк'. *)
Lemma preprocess_text_not_idempotent :
  Ru.preprocess_text (u "маркерер") = u "маркер"
  /\ Ru.preprocess_text (Ru.preprocess_text (u "маркерер")) = u "марк"
  /\ Ru.preprocess_text (Ru.preprocess_text (u "маркерер"))
     <> Ru.preprocess_text (u "маркерер").
Proof. vm_compute. repeat split; discriminate. Qed.

Lemma preprocess_text_idempotent_without_keys_witness :
  preprocess_text Ru.isalnum Ru.lower
    (preprocess_text Ru.isalnum Ru.lower (u "Перманентный МАРКЕР, черный!"))
  = preprocess_text Ru.isalnum Ru.lower (u "Перманентный МАРКЕР, черный!").
Proof.
  apply (preprocess_text_idempotent_without_keys Ru.isalnum Ru.lower
           (u "Перманентный МАРКЕР, черный!"));
    vm_compute; reflexivity.
Defined.

(** ** The stable sort *)

Lemma map_fmap {A B} (f : A -> B) (l : list A) : map f l = f <$> l.
Proof. induction l; by f_equal/=. Qed.

Section StableSort.
Context {A : Type} (before : A -> A -> bool).

Hypothesis before_asym : forall a b, before a b = true -> before b a = false.

Lemma insert_by_Permutation x l : insert_by before x l ≡ₚ x :: l.
Proof.
  induction l as [|y l IH]; [done|].
  cbn [insert_by]. destruct (before y x); [|done].
  rewrite IH. apply Permutation_swap.
Qed.

Lemma stable_sort_Permutation l : stable_sort before l ≡ₚ l.
Proof.
  induction l as [|x l IH]; [done|].
  cbn [stable_sort foldr]. rewrite insert_by_Permutation.
  by constructor.
Qed.

Lemma insert_by_HdRel a x l :
  not_after before a x -> HdRel (not_after before) a l ->
  HdRel (not_after before) a (insert_by before x l).
Proof.
  intros Hax Hal. destruct l as [|y l]; [by constructor|].
  cbn [insert_by]. destruct (before y x); constructor; [|done].
  by inv Hal.
Qed.

Lemma insert_by_Sorted x l :
  Sorted (not_after before) l -> Sorted (not_after before) (insert_by before x l).
Proof.
  induction 1 as [|y l Hl IH Hy]; [by repeat constructor|].
  cbn [insert_by]. destruct (before y x) eqn:Hyx.
  - constructor; [done|]. apply insert_by_HdRel; [|done].
    by apply before_asym.
  - constructor; [by constructor|]. by constructor.
Qed.

Lemma stable_sort_Sorted l : Sorted (not_after before) (stable_sort before l).
Proof.
  induction l as [|x l IH]; [constructor|].
  by apply insert_by_Sorted.
Qed.
End StableSort.

Lemma StronglySorted_weaken {A} (R R' : relation A) (l : list A) :
  (forall a b, a ∈ l -> b ∈ l -> R a b -> R' a b) ->
  StronglySorted R l -> StronglySorted R' l.
Proof.
  intros HR Hl. induction Hl as [|x l Hl IH Hx]; [constructor|].
  constructor.
  - apply IH. intros a b Ha Hb. apply HR; by constructor.
  - apply Forall_forall. intros b Hb. rewrite Forall_forall in Hx.
    apply HR; [by left|by right|by apply Hx].
Qed.

(** ** First occurrences *)

Section FirstOccurrences.
Implicit Types seen l parts : list str.

Lemma elem_of_first_occurrences seen l x :
  x ∈ first_occurrences seen l <-> x ∈ l /\ x ∉ seen.
Proof.
  revert seen. induction l as [|y l IH]; intros seen; cbn [first_occurrences].
  - set_solver.
  - destruct (decide (y ∈ seen)) as [Hy|Hy].
    + rewrite IH. set_solver.
    + rewrite elem_of_cons, IH. destruct (decide (x = y)); set_solver.
Qed.

Lemma NoDup_first_occurrences seen l : NoDup (first_occurrences seen l).
Proof.
  revert seen. induction l as [|y l IH]; intros seen; cbn [first_occurrences].
  - constructor.
  - destruct (decide (y ∈ seen)); [apply IH|].
    constructor; [|apply IH].
    rewrite elem_of_first_occurrences. set_solver.
Qed.

Lemma first_occurrences_Permutation l :
  first_occurrences [] l ≡ₚ elements (set_of l).
Proof.
  apply NoDup_Permutation.
  - apply NoDup_first_occurrences.
  - apply NoDup_elements.
  - intros x. rewrite elem_of_first_occurrences, elem_of_elements.
    unfold set_of. rewrite elem_of_list_to_set. set_solver.
Qed.

Lemma length_first_occurrences l :
  length (first_occurrences [] l) = size (set_of l).
Proof. by rewrite first_occurrences_Permutation. Qed.

Lemma index_inj parts x y :
  x ∈ parts -> index parts x = index parts y -> x = y.
Proof.
  induction parts as [|z parts IH]; [by intros ?%elem_of_nil|].
  cbn [index]. intros Hx.
  destruct (decide (z = x)) as [Hzx|Hzx], (decide (z = y)) as [Hzy|Hzy];
    [congruence|done|done|].
  intros [=]. apply IH; [|done].
  apply elem_of_cons in Hx as [Hx|Hx]; [congruence|done].
Qed.

Lemma first_occurrences_sorted seen l :
  StronglySorted (fun a b => index l a ≤ index l b)%nat (first_occurrences seen l).
Proof.
  revert seen. induction l as [|y l IH]; intros seen; cbn [first_occurrences].
  - constructor.
  - assert (forall s, y ∈ s ->
              StronglySorted (fun a b => index (y :: l) a ≤ index (y :: l) b)%nat
                             (first_occurrences s l)) as Htail.
    { intros s Hs. eapply StronglySorted_weaken; [|apply (IH s)].
      intros a b [_ Ha]%elem_of_first_occurrences
                 [_ Hb]%elem_of_first_occurrences Hab.
      cbn [index]. rewrite !decide_False by set_solver. lia. }
    destruct (decide (y ∈ seen)) as [Hy|Hy]; [by apply Htail|].
    constructor; [apply Htail; by left|].
    apply Forall_forall. intros b _. cbn [index].
    rewrite decide_True by done. lia.
Qed.
End FirstOccurrences.

Lemma elem_of_query_parts (selected_columns : list string)
    (group_df : list ReqRow) (v : str) :
  v ∈ query_parts selected_columns group_df
  <-> exists row col,
        row ∈ group_df /\ col ∈ selected_columns /\ row col = Some v.
Proof.
  unfold query_parts, row_parts. rewrite list_elem_of_In, in_flat_map.
  split.
  - intros (row & Hrow & Hv). apply in_flat_map in Hv as (col & Hcol & Hv).
    exists row, col. rewrite !list_elem_of_In.
    destruct (row col) as [w|]; [|done].
    destruct Hv as [->|[]]. done.
  - intros (row & col & Hrow & Hcol & Hv). exists row.
    split; [by apply list_elem_of_In|].
    apply in_flat_map. exists col. split; [by apply list_elem_of_In|].
    rewrite Hv. by left.
Qed.

(** C8: the query of a group is made of the values of the selected
    columns that are not missing, row by row, each kept at its first
    occurrence only, joined with single spaces; whatever the order in
    which the set is iterated.  Rows with the values A, B and B, C give
    'A B C'. *)
Theorem unique_query_first_occurrences :
  (forall (selected_columns : list string) (group_df : list ReqRow),
      unique_query (query_parts selected_columns group_df)
      = join (u " ")
          (first_occurrences [] (query_parts selected_columns group_df)))
  /\ unique_query
       (query_parts ["c1"; "c2"]%string
          [ row_of [("c1"%string, u "A"); ("c2"%string, u "B")];
            row_of [("c1"%string, u "B"); ("c2"%string, u "C")] ])
     = u "A B C".
Proof.
  split.
  - intros cols df. unfold unique_query, sorted_key. f_equal.
    set (parts := query_parts cols df).
    set (R := fun a b : str => (index parts a ≤ index parts b)%nat).
    assert (Transitive R) by (intros a b c; unfold R; lia).
    apply (Sorted_unique_strong R).
    + intros x1 x2 Hx1 _ H12 H21. apply (index_inj parts).
      * rewrite stable_sort_Permutation, elem_of_elements in Hx1.
        by apply elem_of_list_to_set in Hx1.
      * unfold R in *. lia.
    + eapply Sorted_ind with (P := Sorted R);
        [constructor| |apply (stable_sort_Sorted
                                 (fun a b => (index parts a <? index parts b)%nat))].
      * intros a l _ Hl Ha. constructor; [done|].
        destruct Ha as [|b l Hab]; constructor.
        unfold not_after in Hab. apply Nat.ltb_ge in Hab. exact Hab.
      * intros a b Hab%Nat.ltb_lt. apply Nat.ltb_ge. lia.
    + apply StronglySorted_Sorted, first_occurrences_sorted.
    + by rewrite stable_sort_Permutation, first_occurrences_Permutation.
  - vm_compute. reflexivity.
Qed.

(** The key of a group is made of the same columns as its query: the two
    rows of the example make two groups when they are grouped by both
    columns. *)
Lemma groupby_example_keys :
  fst <$> groupby (combined_key ["c1"; "c2"]%string)
            [ row_of [("c1"%string, u "A"); ("c2"%string, u "B")];
              row_of [("c1"%string, u "B"); ("c2"%string, u "C")] ]
  = [u "A | B"; u "B | C"].
Proof. vm_compute. reflexivity. Qed.

(** ** The selection step *)

Section Selection.
Implicit Types rows : list (NomRow * Q).
Implicit Types seen : list str.

Lemma codes_first_by_code seen rows :
  (fun row => Kod row.1) <$> first_by_code seen rows
  = first_occurrences seen ((fun row => Kod row.1) <$> rows).
Proof.
  revert seen. induction rows as [|row rows IH]; intros seen; [done|].
  cbn [first_by_code fmap list_fmap first_occurrences].
  destruct (decide (Kod row.1 ∈ seen)); [apply IH|].
  cbn [fmap list_fmap]. f_equal. apply IH.
Qed.

Lemma first_by_code_subseteq seen rows : first_by_code seen rows ⊆ rows.
Proof.
  revert seen. induction rows as [|row rows IH]; intros seen; [done|].
  cbn [first_by_code]. destruct (decide (Kod row.1 ∈ seen)).
  - intros x Hx. right. by apply (IH seen).
  - intros x [->|Hx]%elem_of_cons; [by left|].
    right. by apply (IH (Kod row.1 :: seen)).
Qed.

(** The loop emits the first [top_n] rows with a new code. *)
Lemma filter_codes_spec top_n group_name rows seen group_results :
  NoDup seen -> (length seen < top_n)%nat ->
  filter_codes top_n group_name rows (list_to_set seen) group_results
  = group_results
    ++ (make_result group_name
          <$> take (top_n - length seen) (first_by_code seen rows)).
Proof.
  revert seen group_results.
  induction rows as [|row rows IH]; intros seen acc Hnd Hlt.
  - cbn [filter_codes first_by_code]. by rewrite take_nil, app_nil_r.
  - cbn [filter_codes first_by_code].
    destruct (decide (Kod row.1 ∈ seen)) as [Hin|Hnin].
    + rewrite decide_True by by apply elem_of_list_to_set. by apply IH.
    + rewrite decide_False by by rewrite elem_of_list_to_set.
      assert ((list_to_set seen : gset str) ∪ {[ Kod row.1 ]}
              = list_to_set (Kod row.1 :: seen)) as -> by set_solver.
      assert (NoDup (Kod row.1 :: seen)) as Hnd' by by constructor.
      rewrite (size_list_to_set _ Hnd'). cbn [length].
      destruct (top_n - length seen)%nat as [|k] eqn:Hk; [lia|].
      cbn [take fmap list_fmap].
      destruct (decide (top_n ≤ S (length seen))%nat) as [Hle|Hgt].
      * assert (k = 0)%nat as -> by lia. by rewrite take_0.
      * rewrite (IH _ _ Hnd') by (cbn [length]; lia).
        cbn [length]. rewrite <- app_assoc. cbn [app].
        do 4 f_equal. lia.
Qed.

Lemma select_spec priority top_n group_name temp_df :
  select priority top_n group_name temp_df
  = make_result group_name
      <$> take top_n
            (first_by_code [] (head (top_n * 2) (sort_values priority temp_df))).
Proof.
  unfold select. destruct top_n as [|n]; [done|].
  change (∅ : gset str) with (list_to_set [] : gset str).
  rewrite filter_codes_spec; [|constructor|cbn [length]; lia].
  cbn [length app]. by rewrite Nat.sub_0_r.
Qed.
End Selection.

(** C5: the results of one query carry pairwise distinct codes, are at
    most [top_n], come from the first [2 * top_n] rows of the sorted
    frame, and are exactly as many as there are distinct codes among
    those rows when these are fewer than [top_n]; the step is total. *)
Theorem select_distinct_codes_top_n (priority : priority_column) (top_n : nat)
    (group_name : str) (temp_df : list (NomRow * Q)) :
  let window := head (2 * top_n) (sort_values priority temp_df) in
  let results := select priority top_n group_name temp_df in
  NoDup (r_Kod <$> results)
  /\ (length results ≤ top_n)%nat
  /\ Forall (fun r => exists row, row ∈ window /\ r = make_result group_name row)
            results
  /\ length results
     = (top_n `min` size (set_of ((fun row => Kod row.1) <$> window)))%nat.
Proof.
  intros window results. subst results. rewrite select_spec.
  replace (top_n * 2)%nat with (2 * top_n)%nat by lia. fold window.
  assert (r_Kod <$> (make_result group_name
                       <$> take top_n (first_by_code [] window))
          = take top_n (first_occurrences [] ((fun row => Kod row.1) <$> window)))
    as Hcodes.
  { rewrite <- list_fmap_compose, fmap_take, <- codes_first_by_code. done. }
  split; [|split; [|split]].
  - rewrite Hcodes.
    eapply sublist_NoDup; [apply NoDup_first_occurrences|apply sublist_take].
  - rewrite length_fmap, length_take. lia.
  - apply Forall_forall. intros r (row & -> & Hrow)%list_elem_of_fmap.
    exists row. split; [|done].
    by apply (first_by_code_subseteq []), (subseteq_take top_n).
  - rewrite <- (length_fmap r_Kod), Hcodes, length_take.
    by rewrite length_first_occurrences.
Qed.

(** ** Scores *)

Section Scores.
Implicit Types scores normalized : list Q.
Open Scope Q_scope.

Lemma Qltb_lt x y : Qltb x y = true <-> x < y.
Proof.
  unfold Qltb. rewrite negb_true_iff, <- not_true_iff_false, Qle_bool_iff.
  split; [apply Qnot_le_lt|apply Qlt_not_le].
Qed.

Lemma Qltb_ge x y : Qltb x y = false <-> y <= x.
Proof.
  unfold Qltb. rewrite negb_false_iff, Qle_bool_iff. done.
Qed.

(** The fold of [min]: the result is one of the elements and a lower
    bound of all of them. *)
Lemma fold_min_spec rest m :
  let r := fold_left (fun m y => if Qltb y m then y else m) rest m in
  r ∈ m :: rest /\ r <= m /\ Forall (fun y => r <= y) rest.
Proof.
  revert m. induction rest as [|y rest IH]; intros m; cbn [fold_left].
  - split; [by left|]. split; [apply Qle_refl|constructor].
  - destruct (IH (if Qltb y m then y else m)) as (Hin & Hle & Hall).
    destruct (Qltb y m) eqn:Hym.
    + apply Qltb_lt in Hym. split; [by right|].
      split; [lra|]. constructor; [lra|done].
    + apply Qltb_ge in Hym. split.
      { apply elem_of_cons in Hin as [->|Hin]; [by left|by do 2 right]. }
      split; [done|]. constructor; [lra|done].
Qed.

Lemma fold_max_spec rest m :
  let r := fold_left (fun m y => if Qltb m y then y else m) rest m in
  r ∈ m :: rest /\ m <= r /\ Forall (fun y => y <= r) rest.
Proof.
  revert m. induction rest as [|y rest IH]; intros m; cbn [fold_left].
  - split; [by left|]. split; [apply Qle_refl|constructor].
  - destruct (IH (if Qltb m y then y else m)) as (Hin & Hle & Hall).
    destruct (Qltb m y) eqn:Hym.
    + apply Qltb_lt in Hym. split; [by right|].
      split; [lra|]. constructor; [lra|done].
    + apply Qltb_ge in Hym. split.
      { apply elem_of_cons in Hin as [->|Hin]; [by left|by do 2 right]. }
      split; [done|]. constructor; [lra|done].
Qed.

Lemma py_min_max_spec scores :
  scores <> [] ->
  exists lo hi,
    py_min scores = Ok lo /\ py_max scores = Ok hi
    /\ lo ∈ scores /\ hi ∈ scores
    /\ Forall (fun s => lo <= s <= hi) scores.
Proof.
  destruct scores as [|x rest]; [done|]. intros _.
  destruct (fold_min_spec rest x) as (Hlo & Hlox & Hlor).
  destruct (fold_max_spec rest x) as (Hhi & Hhix & Hhir).
  eexists _, _. do 4 (split; [done|]).
  constructor; [done|].
  apply Forall_forall. intros s Hs. rewrite Forall_forall in Hlor, Hhir.
  split; [by apply Hlor|by apply Hhir].
Qed.

Lemma scaled_range lo hi s :
  lo <= s <= hi -> ~ hi == lo ->
  0 <= (s - lo) / (hi - lo) * 100 <= 100.
Proof.
  intros [Hlo Hhi] Hne.
  assert (0 < hi - lo) as Hd.
  { destruct (Qlt_le_dec lo hi) as [|Hle]; [lra|].
    exfalso. apply Hne. lra. }
  assert (0 <= (s - lo) / (hi - lo)) as H0.
  { apply Qle_shift_div_l; [done|]. lra. }
  assert ((s - lo) / (hi - lo) <= 1) as H1.
  { apply Qle_shift_div_r; [done|]. lra. }
  set (r := (s - lo) / (hi - lo)) in *. lra.
Qed.

Lemma min2_in_range x : 0 <= x -> in_range (min2 (x + 5) 100).
Proof.
  intros Hx. unfold in_range, min2.
  destruct (Qltb 100 (x + 5)) eqn:Hlt.
  - lra.
  - apply Qltb_ge in Hlt. lra.
Qed.

Lemma normalize_scores_in_range scores normalized :
  normalize_scores scores = Ok normalized ->
  length normalized = length scores /\ Forall in_range normalized.
Proof.
  destruct (decide (scores = [])) as [->|Hne]; [done|].
  destruct (py_min_max_spec scores Hne) as (lo & hi & Hmin & Hmax & _ & _ & Hall).
  unfold normalize_scores. rewrite Hmin, Hmax. cbn [mbind result_bind mret result_ret].
  intros [= <-]. destruct (Qeq_bool hi lo) eqn:Heq.
  - destruct (Qltb 0 hi); rewrite length_replicate; (split; [done|]);
      apply Forall_replicate; unfold in_range; lra.
  - rewrite length_map. split; [done|].
    apply Forall_forall. intros x Hx. rewrite map_fmap in Hx.
    apply list_elem_of_fmap in Hx as (s & -> & Hs).
    rewrite Forall_forall in Hall. apply scaled_range; [by apply Hall|].
    intros Hhl%Qeq_bool_iff. congruence.
Qed.

(** The loop of [prefix_bonus] does not raise when the frame and the list
    of scores are aligned, and gives every entry its bonus. *)
Lemma prefix_bonus_spec prefix names idx normalized :
  (idx + length names = length normalized)%nat ->
  prefix_bonus prefix names idx normalized
  = Ok (take idx normalized ++ zip_with (bonus prefix) names (drop idx normalized)).
Proof.
  revert idx normalized.
  induction names as [|name names IH]; intros idx normalized Hlen.
  - cbn [prefix_bonus zip_with length] in *.
    rewrite app_nil_r, take_ge by lia. done.
  - cbn [length] in Hlen.
    destruct (lookup_lt_is_Some_2 normalized idx) as [x Hx]; [lia|].
    assert (prefix_bonus prefix (name :: names) idx normalized
            = prefix_bonus prefix names (S idx)
                (<[idx := bonus prefix name x]> normalized)) as ->.
    { cbn [prefix_bonus]. unfold bonus.
      destruct (startswith name prefix); [by rewrite Hx|].
      by rewrite list_insert_id. }
    rewrite IH by (rewrite length_insert; lia).
    rewrite (take_S_r _ _ (bonus prefix name x))
      by (apply list_lookup_insert_eq; lia).
    rewrite take_insert_ge, drop_insert_lt by lia.
    rewrite (drop_S _ _ _ Hx). cbn [zip_with].
    by rewrite <- app_assoc.
Qed.

Lemma adjusted_scores_spec processed processed_query scores normalized :
  length processed = length scores ->
  normalize_scores scores = Ok normalized ->
  adjusted_scores processed processed_query scores
  = Ok (zip_with (bonus (join (u " ") processed_query)) processed normalized).
Proof.
  intros Hlen Hnorm. unfold adjusted_scores. rewrite Hnorm.
  cbn [mbind result_bind].
  apply normalize_scores_in_range in Hnorm as [Hl _].
  rewrite prefix_bonus_spec by (cbn; lia). by rewrite take_0, drop_0.
Qed.
End Scores.

(** C4: with [lo] the least and [hi] the greatest score, the normalised
    scores are all 100 when [hi == lo] and [hi > 0], all 0 when
    [hi == lo] and not [hi > 0], and [(s - lo) / (hi - lo) * 100] for
    every score [s] otherwise. *)
Theorem normalize_scores_min_max (scores : list Q) :
  scores <> [] ->
  exists lo hi : Q,
    py_min scores = Ok lo /\ py_max scores = Ok hi
    /\ lo ∈ scores /\ hi ∈ scores
    /\ Forall (fun s => lo <= s <= hi)%Q scores
    /\ ((hi == lo)%Q -> (0 < hi)%Q ->
        normalize_scores scores = Ok (replicate (length scores) 100%Q))
    /\ ((hi == lo)%Q -> ~ (0 < hi)%Q ->
        normalize_scores scores = Ok (replicate (length scores) 0%Q))
    /\ (~ (hi == lo)%Q ->
        normalize_scores scores
        = Ok (map (fun s => ((s - lo) / (hi - lo) * 100)%Q) scores)).
Proof.
  intros Hne.
  destruct (py_min_max_spec scores Hne) as (lo & hi & Hmin & Hmax & Hlo & Hhi & Hall).
  exists lo, hi. do 5 (split; [done|]).
  unfold normalize_scores. rewrite Hmin, Hmax.
  cbn [mbind result_bind mret result_ret].
  split; [|split].
  - intros Heq%Qeq_bool_iff Hpos%Qltb_lt. by rewrite Heq, Hpos.
  - intros Heq%Qeq_bool_iff Hpos. rewrite Heq.
    destruct (Qltb 0 hi) eqn:Hlt; [|done]. by apply Qltb_lt in Hlt.
  - intros Hneq. destruct (Qeq_bool hi lo) eqn:Heq; [|done].
    by apply Qeq_bool_iff in Heq.
Qed.

Lemma normalize_scores_min_max_witness :
  exists lo hi : Q,
    py_min [1; 3; 2]%Q = Ok lo /\ py_max [1; 3; 2]%Q = Ok hi
    /\ lo ∈ [1; 3; 2]%Q /\ hi ∈ [1; 3; 2]%Q
    /\ Forall (fun s => lo <= s <= hi)%Q [1; 3; 2]%Q
    /\ ((hi == lo)%Q -> (0 < hi)%Q ->
        normalize_scores [1; 3; 2]%Q
        = Ok (replicate (length [1; 3; 2]%Q) 100%Q))
    /\ ((hi == lo)%Q -> ~ (0 < hi)%Q ->
        normalize_scores [1; 3; 2]%Q
        = Ok (replicate (length [1; 3; 2]%Q) 0%Q))
    /\ (~ (hi == lo)%Q ->
        normalize_scores [1; 3; 2]%Q
        = Ok (map (fun s => ((s - lo) / (hi - lo) * 100)%Q) [1; 3; 2]%Q)).
Proof. apply (normalize_scores_min_max [1; 3; 2]%Q). discriminate. Defined.

(** C6: for every query the adjusted similarity of every entry of the
    catalogue (normalised score, plus 5 capped at 100 where the processed
    name starts with the joined query tokens) exists and lies between 0
    and 100. *)
Theorem adjusted_scores_between_0_and_100 (processed processed_query : list str)
    (scores : list Q) :
  scores <> [] ->
  length processed = length scores ->
  exists normalized adjusted : list Q,
    normalize_scores scores = Ok normalized
    /\ adjusted_scores processed processed_query scores = Ok adjusted
    /\ adjusted
       = zip_with (bonus (join (u " ") processed_query)) processed normalized
    /\ length adjusted = length scores
    /\ Forall (fun x => 0 <= x <= 100)%Q adjusted.
Proof.
  intros Hne Hlen.
  destruct (py_min_max_spec scores Hne) as (lo & hi & Hmin & Hmax & _).
  destruct (normalize_scores scores) as [normalized|e] eqn:Hnorm;
    [|unfold normalize_scores in Hnorm; by rewrite Hmin, Hmax in Hnorm].
  exists normalized,
    (zip_with (bonus (join (u " ") processed_query)) processed normalized).
  split; [done|].
  split; [by apply adjusted_scores_spec|]. split; [done|].
  apply normalize_scores_in_range in Hnorm as [Hl Hrange].
  split; [rewrite length_zip_with; lia|].
  apply Forall_forall. intros x Hx.
  apply elem_of_lookup_zip_with in Hx as (i & name & n & -> & _ & Hn).
  rewrite Forall_forall in Hrange.
  assert (in_range n) as [H0 H100] by by eapply Hrange, list_elem_of_lookup_2.
  unfold bonus. destruct (startswith name _); [|done].
  by apply min2_in_range.
Qed.

Lemma adjusted_scores_between_0_and_100_witness :
  exists normalized adjusted : list Q,
    normalize_scores [0; 3; 6]%Q = Ok normalized
    /\ adjusted_scores [u "марк черный"; u "марк"; u "файл"] [u "марк"]
         [0; 3; 6]%Q = Ok adjusted
    /\ adjusted
       = zip_with (bonus (join (u " ") [u "марк"]))
           [u "марк черный"; u "марк"; u "файл"] normalized
    /\ length adjusted = length [0; 3; 6]%Q
    /\ Forall (fun x => 0 <= x <= 100)%Q adjusted.
Proof.
  apply (adjusted_scores_between_0_and_100
           [u "марк черный"; u "марк"; u "файл"] [u "марк"] [0; 3; 6]%Q);
    [discriminate|reflexivity].
Defined.

(** ** The run over the groups *)

Lemma stable_sort_stable {A} (before : A -> A -> bool) (P : A -> Prop)
    `{forall a, Decision (P a)} (l : list A) :
  (forall a b, P a -> P b -> before a b = false) ->
  filter P (stable_sort before l) = filter P l.
Proof.
  intros HP. induction l as [|x l IH]; [done|].
  cbn [stable_sort foldr]. fold (stable_sort before l).
  rewrite (filter_cons _ x l), <- IH. clear IH.
  induction (stable_sort before l) as [|y k IHk]; [done|].
  cbn [insert_by]. destruct (before y x) eqn:Hyx; [|done].
  rewrite !filter_cons, IHk.
  destruct (decide (P y)) as [Hy|Hy], (decide (P x)) as [Hx|Hx]; try done.
  rewrite (HP y x Hy Hx) in Hyx. discriminate.
Qed.

Lemma elem_of_select priority top_n group_name temp_df r :
  r ∈ select priority top_n group_name temp_df ->
  exists row, row ∈ temp_df /\ r = make_result group_name row.
Proof.
  rewrite select_spec. intros (row & -> & Hrow)%list_elem_of_fmap.
  exists row. split; [|done].
  apply (subseteq_take top_n), (first_by_code_subseteq []) in Hrow.
  apply subseteq_take in Hrow. unfold sort_values in Hrow.
  by rewrite stable_sort_Permutation in Hrow.
Qed.


Section Run.
Variable isalnum : N -> bool.
Variable lower : str -> str.
Variable bm25_index : Type.
Variable BM25Okapi : list (list str) -> result bm25_index.
Variable get_scores : bm25_index -> list str -> list Q.

Lemma normalize_scores_zeros n :
  (0 < n)%nat -> normalize_scores (replicate n 0%Q) = Ok (replicate n 0%Q).
Proof.
  intros Hn. destruct n as [|n]; [lia|].
  assert (forall k (f : Q -> Q -> Q), f 0%Q 0%Q = 0%Q ->
            fold_left f (replicate k 0%Q) 0%Q = 0%Q) as Hfold.
  { intros k f Hf. induction k as [|k IH]; [done|].
    cbn [replicate fold_left]. by rewrite Hf. }
  unfold normalize_scores. cbn [replicate py_min py_max].
  rewrite !Hfold by done. cbn [mbind result_bind mret result_ret].
  change (Qeq_bool 0 0) with true. change (Qltb 0 0) with false.
  cbn [length]. by rewrite length_replicate.
Qed.

Lemma bonus_zeros names n :
  length names = n ->
  zip_with (bonus []) names (replicate n 0%Q) = replicate n 5%Q.
Proof.
  intros <-. induction names as [|name names IH]; [done|].
  cbn [length replicate zip_with]. rewrite IH. f_equal.
  unfold bonus. by rewrite startswith_nil.
Qed.

(** A query without token on an index that scores it with zeros: every
    entry is adjusted to 5, and the results are the selection over the
    catalogue at that similarity. *)
Lemma process_group_empty_query (nomenclature : list NomRow)
    (processed : list str) (bm25 : bm25_index)
    (selected_columns : list string) (priority : priority_column)
    (top_n : nat) (group_name : str) (group_df : list ReqRow) :
  nomenclature <> [] ->
  length processed = length nomenclature ->
  get_scores bm25 [] = replicate (length nomenclature) 0%Q ->
  split (preprocess_text isalnum lower
           (unique_query (query_parts selected_columns group_df))) = [] ->
  adjusted_scores processed [] (get_scores bm25 [])
  = Ok (replicate (length nomenclature) 5%Q)
  /\ process_group isalnum lower bm25_index get_scores nomenclature
       processed bm25 selected_columns priority top_n group_name group_df
     = Ok (select priority top_n group_name (at_similarity_5 nomenclature)).
Proof.
  intros Hne Hlen Hzero Hquery.
  assert (0 < length nomenclature)%nat as Hpos.
  { destruct nomenclature; [done|cbn; lia]. }
  pose proof (normalize_scores_zeros _ Hpos) as Hnorm.
  assert (adjusted_scores processed [] (get_scores bm25 [])
          = Ok (replicate (length nomenclature) 5%Q)) as Hadj.
  { rewrite Hzero.
    assert (length processed = length (replicate (length nomenclature) 0%Q))
      as Hlen' by by rewrite length_replicate.
    rewrite (adjusted_scores_spec processed [] _ _ Hlen' Hnorm).
    by rewrite bonus_zeros. }
  split; [done|].
  unfold process_group. rewrite Hquery, Hadj.
  cbn [mbind result_bind mret result_ret]. unfold assign_similarity.
  by rewrite decide_True by by rewrite length_replicate.
Qed.


(** The run interleaved with the GUI thread gives the results of
    [process_groups], whenever the button is pressed. *)
Lemma hosted_groups_results nomenclature processed bm25 selected_columns
    priority top_n cancel_after count app grouped results :
  match hosted_groups isalnum lower bm25_index get_scores nomenclature
          processed bm25 selected_columns priority top_n cancel_after count
          app grouped results with
  | Ok (_, rs) =>
      process_groups isalnum lower bm25_index get_scores nomenclature
        processed bm25 selected_columns priority top_n grouped results = Ok rs
  | Raise e =>
      process_groups isalnum lower bm25_index get_scores nomenclature
        processed bm25 selected_columns priority top_n grouped results = Raise e
  end.
Proof.
  revert count app results.
  induction grouped as [|[group_name group_df] grouped IH];
    intros count app results; [done|].
  cbn [hosted_groups process_groups].
  destruct (process_group _ _ _ _ _ _ _ _ _ _ _ _) as [group_results|e];
    [|done].
  cbn [mbind result_bind]. apply IH.
Qed.

Lemma run_processing_results self selected_columns priority top_n cancel_after :
  match run_processing isalnum lower bm25_index BM25Okapi get_scores self
          selected_columns priority top_n cancel_after with
  | Ok (_, rs) =>
      process_grouped_requests isalnum lower bm25_index BM25Okapi get_scores
        self selected_columns priority top_n = Ok rs
  | Raise e =>
      process_grouped_requests isalnum lower bm25_index BM25Okapi get_scores
        self selected_columns priority top_n = Raise e
  end.
Proof.
  unfold run_processing, process_grouped_requests.
  destruct (request_df self) as [requests|]; [|done].
  destruct (nomenclature_df self) as [nomenclature|]; [|done].
  destruct (BM25Okapi _) as [bm25|e]; [|done].
  cbn [mbind result_bind]. apply hosted_groups_results.
Qed.

End Run.

(** The constructor of the index returns on every corpus in which a
    document has a token. *)
Lemma BM25Okapi_builds corpus :
  concat corpus <> [] -> RankBM25.BM25Okapi corpus = Ok corpus.
Proof.
  intros Hne. unfold RankBM25.BM25Okapi.
  destruct corpus as [|doc corpus]; [done|]. by destruct (concat (doc :: corpus)).
Qed.

(** The query without token is scored with the vector of zeros from
    which [get_scores] starts. *)
Lemma get_scores_empty_query term_weight bm25 :
  RankBM25.get_scores term_weight bm25 [] = replicate (length bm25) 0%Q.
Proof. done. Qed.

Lemma select_nonempty priority top_n group_name temp_df :
  temp_df <> [] -> (0 < top_n)%nat ->
  select priority top_n group_name temp_df <> [].
Proof.
  intros Hne Htop. rewrite select_spec.
  pose proof (stable_sort_Permutation (sorts_before priority) temp_df) as Hperm.
  fold (sort_values priority temp_df) in Hperm.
  destruct (sort_values priority temp_df) as [|best rest].
  { by apply Permutation_nil in Hperm. }
  destruct top_n as [|n]; [lia|].
  cbn [Nat.mul Nat.add head take first_by_code].
  rewrite decide_False by by intros ?%elem_of_nil.
  done.
Qed.

Section EmptyQuery.
Variable isalnum : N -> bool.
Variable lower : str -> str.
Variable term_weight : RankBM25.bm25_index -> str -> list str -> Q.

(** C10, as amended: for a query without token against a catalogue in
    which a name has a token, the index is built, the scores of the
    query are all 0 and so are the normalised scores, every entry is
    adjusted to 5, and the results of the query are the selection over
    the catalogue at the similarity 5: every result has the similarity
    5, and there is a result when [top_n] is 1 or more. *)
Theorem empty_query_similarity_5 (nomenclature : list NomRow)
    (selected_columns : list string) (priority : priority_column)
    (top_n : nat) (group_name : str) (group_df : list ReqRow) :
  concat (tokenized_names isalnum lower nomenclature) <> [] ->
  split (preprocess_text isalnum lower
           (unique_query (query_parts selected_columns group_df))) = [] ->
  exists bm25,
    RankBM25.BM25Okapi (tokenized_names isalnum lower nomenclature) = Ok bm25
    /\ RankBM25.get_scores term_weight bm25 []
       = replicate (length nomenclature) 0%Q
    /\ normalize_scores (RankBM25.get_scores term_weight bm25 [])
       = Ok (replicate (length nomenclature) 0%Q)
    /\ adjusted_scores (processed_names isalnum lower nomenclature) []
         (RankBM25.get_scores term_weight bm25 [])
       = Ok (replicate (length nomenclature) 5%Q)
    /\ process_group isalnum lower RankBM25.bm25_index
         (RankBM25.get_scores term_weight) nomenclature
         (processed_names isalnum lower nomenclature) bm25
         selected_columns priority top_n group_name group_df
       = Ok (select priority top_n group_name (at_similarity_5 nomenclature))
    /\ Forall (fun r => r_Shodstvo r = 5%Q)
         (select priority top_n group_name (at_similarity_5 nomenclature))
    /\ ((0 < top_n)%nat ->
        select priority top_n group_name (at_similarity_5 nomenclature) <> []).
Proof.
  intros Htoken Hquery.
  assert (nomenclature <> []) as Hne by by intros ->.
  assert (length (tokenized_names isalnum lower nomenclature)
          = length nomenclature) as Hsize.
  { unfold tokenized_names, processed_names. by rewrite !length_map. }
  assert (length (processed_names isalnum lower nomenclature)
          = length nomenclature) as Hlen.
  { unfold processed_names. by rewrite length_map. }
  exists (tokenized_names isalnum lower nomenclature).
  split; [by apply BM25Okapi_builds|].
  rewrite get_scores_empty_query, Hsize.
  split; [done|].
  split. { apply normalize_scores_zeros. destruct nomenclature; [done|cbn; lia]. }
  destruct (process_group_empty_query isalnum lower RankBM25.bm25_index
              (RankBM25.get_scores term_weight) nomenclature
              (processed_names isalnum lower nomenclature)
              (tokenized_names isalnum lower nomenclature)
              selected_columns priority top_n group_name group_df)
    as [Hadj Hgroup]; [done|done| |done|].
  { by rewrite get_scores_empty_query, Hsize. }
  rewrite get_scores_empty_query, Hsize in Hadj.
  split; [done|]. split; [done|]. split.
  - apply Forall_forall. intros r ([row x] & Hrow & ->)%elem_of_select.
    cbn [make_result r_Shodstvo snd]. unfold at_similarity_5 in Hrow.
    apply elem_of_zip_r in Hrow. by apply elem_of_replicate in Hrow as [-> _].
  - apply select_nonempty. unfold at_similarity_5.
    destruct nomenclature; [done|]. cbn. done.
Qed.
End EmptyQuery.

(** ** The run on examples *)

Lemma empty_query_similarity_5_witness :
  exists bm25,
    RankBM25.BM25Okapi (tokenized_names Ru.isalnum Ru.lower catalog_2) = Ok bm25
    /\ RankBM25.get_scores (fun _ => TermCount.term_weight) bm25 []
       = replicate (length catalog_2) 0%Q
    /\ normalize_scores
         (RankBM25.get_scores (fun _ => TermCount.term_weight) bm25 [])
       = Ok (replicate (length catalog_2) 0%Q)
    /\ adjusted_scores (processed_names Ru.isalnum Ru.lower catalog_2) []
         (RankBM25.get_scores (fun _ => TermCount.term_weight) bm25 [])
       = Ok (replicate (length catalog_2) 5%Q)
    /\ process_group Ru.isalnum Ru.lower RankBM25.bm25_index
         (RankBM25.get_scores (fun _ => TermCount.term_weight)) catalog_2
         (processed_names Ru.isalnum Ru.lower catalog_2) bm25
         ["a"%string] ByOformleno 3 (u "?!") [row_of [("a"%string, u "?!")]]
       = Ok (select ByOformleno 3 (u "?!") (at_similarity_5 catalog_2))
    /\ Forall (fun r => r_Shodstvo r = 5%Q)
         (select ByOformleno 3 (u "?!") (at_similarity_5 catalog_2))
    /\ ((0 < 3)%nat ->
        select ByOformleno 3 (u "?!") (at_similarity_5 catalog_2) <> []).
Proof.
  apply (empty_query_similarity_5 Ru.isalnum Ru.lower
           (fun _ => TermCount.term_weight) catalog_2
           ["a"%string] ByOformleno 3 (u "?!") [row_of [("a"%string, u "?!")]]);
    vm_compute; [discriminate|reflexivity].
Defined.

(** C10: a catalogue that is not empty and in which no name has a token,
    and a query without token: the constructor of the index divides by
    zero, so the run has no score vector and no result. *)
Lemma tokenless_catalog_raises :
  tokenless_catalog <> []
  /\ split (Ru.preprocess_text
              (unique_query
                 (query_parts ["a"%string] [row_of [("a"%string, u "?")]]))) = []
  /\ RankBM25.BM25Okapi (tokenized_names Ru.isalnum Ru.lower tokenless_catalog)
     = Raise (ZeroDivisionError "division by zero")
  /\ TermCount.process_grouped_requests tokenless_request ["a"%string]
       ByOformleno 3
     = Raise (ZeroDivisionError "division by zero").
Proof. vm_compute. repeat split; [discriminate|..]; reflexivity. Qed.



(** C2: two groups, '!' and '?', and the button pressed when the first
    has been processed: the run sets the flag and still returns the
    results of both groups, as does the call without any cancellation. *)
Theorem cancel_after_first_group_ignored :
  TermCount.run_processing two_requests ["a"%string] ByOformleno 1 (Some 1%nat)
  = Ok ({| cancel_flag := true; is_processing := false |},
        [ board_marker_for (u "!"); board_marker_for (u "?") ])
  /\ TermCount.process_grouped_requests two_requests ["a"%string] ByOformleno 1
     = Ok [ board_marker_for (u "!"); board_marker_for (u "?") ]
  /\ fst <$> groupby (combined_key ["a"%string])
               [row_of [("a"%string, u "?")]; row_of [("a"%string, u "!")]]
     = [u "!"; u "?"].
Proof. vm_compute. repeat split; reflexivity. Qed.

(** ** What the sort of the frame guarantees *)

Section SortValues.
Implicit Types a b : NomRow * Q.

Lemma str_ltb_irrefl (x : str) : str_ltb x x = false.
Proof.
  induction x as [|c x IH]; [done|].
  cbn [str_ltb]. by rewrite N.ltb_irrefl, N.eqb_refl, IH.
Qed.

Lemma str_ltb_asym (x y : str) : str_ltb x y = true -> str_ltb y x = false.
Proof.
  revert y. induction x as [|c x IH]; intros [|d y]; try done.
  cbn [str_ltb]. intros Hxy.
  destruct (N.lt_trichotomy c d) as [Hlt|[->|Hgt]].
  - assert ((d <? c) = false) as -> by (apply N.ltb_ge; lia).
    assert ((d =? c) = false) as -> by (apply N.eqb_neq; lia). done.
  - rewrite N.ltb_irrefl, N.eqb_refl in *. cbn [orb andb] in *. by apply IH.
  - assert ((c <? d) = false) as Hcd by (apply N.ltb_ge; lia).
    assert ((c =? d) = false) as Hne by (apply N.eqb_neq; lia).
    by rewrite Hcd, Hne in Hxy.
Qed.

Lemma sorts_before_asym priority a b :
  sorts_before priority a b = true -> sorts_before priority b a = false.
Proof.
  unfold sorts_before, str_eqb.
  intros [Hlt|[Heq Hsim]%andb_true_iff]%orb_true_iff.
  - rewrite (str_ltb_asym _ _ Hlt). cbn [orb].
    case_bool_decide as Hcol; [|done].
    by rewrite Hcol, str_ltb_irrefl in Hlt.
  - apply bool_decide_eq_true in Heq. rewrite Heq, str_ltb_irrefl.
    cbn [orb]. apply andb_false_iff. right.
    apply Qltb_lt in Hsim. apply Qltb_ge. lra.
Qed.

(** The sorted frame holds the rows of the frame, no row stands behind a
    row that it has to precede, and the rows with one flag and one
    similarity keep the order of the frame. *)
Lemma sort_values_sorted priority (df : list (NomRow * Q)) :
  sort_values priority df ≡ₚ df
  /\ Sorted (not_after (sorts_before priority)) (sort_values priority df).
Proof.
  split; [apply stable_sort_Permutation|].
  apply stable_sort_Sorted, sorts_before_asym.
Qed.

Lemma sort_values_stable priority (flag : str) (similarity : Q)
    (df : list (NomRow * Q)) :
  filter (fun a => column priority a.1 = flag
                   /\ Qeq_bool a.2 similarity = true)
         (sort_values priority df)
  = filter (fun a => column priority a.1 = flag
                     /\ Qeq_bool a.2 similarity = true) df.
Proof.
  apply stable_sort_stable.
  intros a b [Ha Hqa] [Hb Hqb]. unfold sorts_before.
  rewrite Ha, Hb, str_ltb_irrefl. cbn [orb]. apply andb_false_iff. right.
  apply Qeq_bool_iff in Hqa, Hqb. apply Qltb_ge. lra.
Qed.
End SortValues.

(** C1: the entry C1 is flagged 'Да' and has the similarity 100, the
    entry C2 is flagged 'Нет' and has the similarity 0; the sort puts C2
    first, because 'Нет' is the greater string, and with [top_n = 1] C2
    alone is returned. *)
Theorem sort_values_net_before_da :
  str_ltb Da Net = true
  /\ (Kod ∘ fst) <$> sort_values ByOformleno (zip catalog_2 [100; 0]%Q)
     = [u "C2"; u "C1"]
  /\ r_Kod <$> select ByOformleno 1 (u "маркер") (zip catalog_2 [100; 0]%Q)
     = [u "C2"].
Proof. vm_compute. repeat split; reflexivity. Qed.

(** * Further properties of the code *)

(** ** Status labels ([get_status]) *)

Lemma is_da_spec (flag : str) : is_da flag = true <-> flag = Da.
Proof. unfold is_da, str_eqb. apply bool_decide_eq_true. Qed.

Lemma get_status_flags (row : NomRow) :
  get_status row
  = match flags row with
    | (false, false, false) => u "—"
    | (true, false, false) => u "Оформлено"
    | (false, true, false) => u "Товар Производителя"
    | (false, false, true) => u "Основной Ассортимент"
    | (true, true, false) => u "Оформлено, Товар Производителя"
    | (true, false, true) => u "Оформлено, Основной Ассортимент"
    | (false, true, true) => u "Товар Производителя, Основной Ассортимент"
    | (true, true, true) =>
        u "Оформлено, Товар Производителя, Основной Ассортимент"
    end.
Proof.
  unfold get_status, flags, is_da.
  destruct (str_eqb (Oformleno row) Da), (str_eqb (TovarProizvoditelya row) Da),
    (str_eqb (OsnovnoyAssortiment row) Da); vm_compute; reflexivity.
Qed.

(** X1: the status of an entry is the dash exactly when none of its three
    flags is 'Да'. *)
Theorem get_status_dash_iff (row : NomRow) :
  get_status row = u "—"
  <-> Oformleno row <> Da /\ TovarProizvoditelya row <> Da
      /\ OsnovnoyAssortiment row <> Da.
Proof.
  rewrite get_status_flags. unfold flags.
  rewrite <- !is_da_spec.
  destruct (is_da (Oformleno row)), (is_da (TovarProizvoditelya row)),
    (is_da (OsnovnoyAssortiment row));
    (split; [intros H; vm_compute in H; try discriminate H|intros (? & ? & ?)]);
    try done.
Qed.

(** X2: the status tells which flags are 'Да': two entries have the same
    status exactly when they agree on the three tests. *)
Theorem get_status_eq_iff_flags (row1 row2 : NomRow) :
  get_status row1 = get_status row2 <-> flags row1 = flags row2.
Proof.
  rewrite !get_status_flags. split; [|by intros ->].
  destruct (flags row1) as [[[] []] []], (flags row2) as [[[] []] []];
    intros H; try reflexivity; vm_compute in H; discriminate H.
Qed.

(** ** The header row ([find_header_row]) *)

Section HeaderRowFacts.
Variable lower : str -> str.
Implicit Types df sheet : frame.

Lemma find_header_row_from_first df idx i row :
  df !! i = Some row ->
  row_matches lower row = true ->
  (forall j row', (j < i)%nat -> df !! j = Some row' ->
                  row_matches lower row' = false) ->
  find_header_row_from lower df idx = (idx + i)%nat.
Proof.
  revert idx i. induction df as [|r df IH]; intros idx i Hi Hrow Hbefore.
  - done.
  - cbn [find_header_row_from]. destruct i as [|i].
    + cbn in Hi. injection Hi as ->. rewrite Hrow. lia.
    + rewrite (Hbefore 0%nat r) by (done || lia).
      rewrite (IH (S idx) i); [lia|done|done|].
      intros j row' Hj Hrow'. apply (Hbefore (S j)); [lia|done].
Qed.

Lemma find_header_row_from_none df idx :
  Forall (fun row => row_matches lower row = false) df ->
  find_header_row_from lower df idx = 0%nat.
Proof.
  intros Hdf. revert idx. induction Hdf as [|r df Hr Hdf IH]; intros idx; [done|].
  cbn [find_header_row_from]. by rewrite Hr.
Qed.

Lemma find_header_row_from_range df idx :
  find_header_row_from lower df idx = 0%nat
  /\ Forall (fun row => row_matches lower row = false) df
  \/ (idx <= find_header_row_from lower df idx < idx + length df)%nat.
Proof.
  revert idx. induction df as [|r df IH]; intros idx.
  - left. by split.
  - cbn [find_header_row_from length].
    destruct (row_matches lower r) eqn:Hr; [right; lia|].
    destruct (IH (S idx)) as [[-> Hall]|Hrange].
    + left. split; [done|by constructor].
    + right. lia.
Qed.

(** X3: when a row mentions 'товар' and no row above it does,
    [find_header_row] returns the index of that row. *)
Theorem find_header_row_first_match df (i : nat) (row : list cell) :
  df !! i = Some row ->
  row_matches lower row = true ->
  (forall j row', (j < i)%nat -> df !! j = Some row' ->
                  row_matches lower row' = false) ->
  find_header_row lower df = i.
Proof.
  intros Hi Hrow Hbefore. unfold find_header_row.
  by rewrite (find_header_row_from_first df 0 i row).
Qed.

(** X4: the answer 0 has two meanings: no row mentions 'товар', or the
    first row does. *)
Theorem find_header_row_zero_iff df :
  find_header_row lower df = 0%nat
  <-> Forall (fun row => row_matches lower row = false) df
      \/ exists row, df !! 0%nat = Some row /\ row_matches lower row = true.
Proof.
  unfold find_header_row. split.
  - intros Hzero. destruct df as [|r df]; [by left|].
    cbn [find_header_row_from] in Hzero.
    destruct (row_matches lower r) eqn:Hr; [right; by exists r|].
    left. destruct (find_header_row_from_range df 1) as [[_ Hall]|Hrange];
      [by constructor|lia].
  - intros [Hall|(row & Hrow & Hmatch)].
    + by apply find_header_row_from_none.
    + rewrite (find_header_row_from_first df 0 0 row); [done..|].
      intros j ? ?. lia.
Qed.

(** X5: the header row found for a sheet is one of its first ten rows. *)
Theorem header_row_of_sheet_bound sheet :
  sheet <> [] ->
  (header_row_of_sheet lower sheet < 10)%nat
  /\ (header_row_of_sheet lower sheet < length sheet)%nat.
Proof.
  intros Hne. unfold header_row_of_sheet, find_header_row, head.
  assert (0 < length sheet)%nat by (destruct sheet; [done|cbn; lia]).
  destruct (find_header_row_from_range (take 10 sheet) 0) as [[-> _]|Hrange].
  - lia.
  - rewrite length_take in Hrange. lia.
Qed.
End HeaderRowFacts.

Lemma find_header_row_first_match_witness :
  find_header_row Ru.lower sheet_2 = 1%nat.
Proof.
  apply (find_header_row_first_match Ru.lower sheet_2 1
           [Some (u "Товар"); Some (u "Количество")]).
  - reflexivity.
  - vm_compute. reflexivity.
  - intros j row' Hj Hrow'. assert (j = 0%nat) as -> by lia.
    injection Hrow' as <-. vm_compute. reflexivity.
Defined.

Lemma header_row_of_sheet_bound_witness :
  (header_row_of_sheet Ru.lower sheet_2 < 10)%nat
  /\ (header_row_of_sheet Ru.lower sheet_2 < length sheet_2)%nat.
Proof. apply (header_row_of_sheet_bound Ru.lower sheet_2). discriminate. Defined.

(** ** Missing values of the request ([load_request_data]) *)

Section FillFacts.
Implicit Types df : frame.
Implicit Types last row : list cell.

Lemma length_fill_row last row : length (fill_row last row) = length row.
Proof.
  revert last. induction row as [|c row IH]; intros last; [done|].
  cbn [fill_row length]. by rewrite IH.
Qed.

Lemma lookup_fill_row last row j :
  fill_row last row !! j
  = match row !! j with
    | Some (Some v) => Some (Some v)
    | Some None => Some (default None (last !! j))
    | None => None
    end.
Proof.
  revert last j. induction row as [|c row IH]; intros last j; [done|].
  destruct j as [|j]; cbn [fill_row lookup list_lookup].
  - destruct c; [done|]. by destruct last.
  - rewrite IH. by destruct last.
Qed.

Lemma fill_row_idemp last row :
  fill_row last (fill_row last row) = fill_row last row.
Proof.
  revert last. induction row as [|c row IH]; intros last; [done|].
  cbn [fill_row]. rewrite IH. f_equal.
  destruct c; [done|]. by destruct last as [|[?|] ?].
Qed.

Lemma fill_row_notna last row :
  existsb notna row = true -> existsb notna (fill_row last row) = true.
Proof.
  revert last. induction row as [|c row IH]; intros last; [done|].
  cbn [fill_row existsb]. intros [Hc|Hrow]%orb_true_iff.
  - destruct c; [done|discriminate].
  - rewrite (IH _ Hrow). apply orb_true_r.
Qed.

Lemma ffill_from_idemp last df :
  ffill_from last (ffill_from last df) = ffill_from last df.
Proof.
  revert last. induction df as [|row df IH]; intros last; [done|].
  cbn [ffill_from]. rewrite fill_row_idemp. f_equal. apply IH.
Qed.

Lemma ffill_from_notna last df :
  Forall (fun row => existsb notna row = true) df ->
  Forall (fun row => existsb notna row = true) (ffill_from last df).
Proof.
  intros Hdf. revert last.
  induction Hdf as [|row df Hrow Hdf IH]; intros last; [constructor|].
  cbn [ffill_from]. constructor; [by apply fill_row_notna|apply IH].
Qed.

Lemma length_ffill_from last df : length (ffill_from last df) = length df.
Proof.
  revert last. induction df as [|row df IH]; intros last; [done|].
  cbn [ffill_from length]. by rewrite IH.
Qed.

Lemma cell_at_0 row df j : cell_at (row :: df) 0 j = row !! j.
Proof. done. Qed.

Lemma cell_at_S row df i j : cell_at (row :: df) (S i) j = cell_at df i j.
Proof. done. Qed.

Lemma ffill_from_width (w : nat) last df :
  Forall (fun row => length row = w) df ->
  Forall (fun row => length row = w) (ffill_from last df).
Proof.
  intros Hdf. revert last.
  induction Hdf as [|row df Hrow Hdf IH]; intros last; [constructor|].
  cbn [ffill_from]. constructor; [by rewrite length_fill_row|apply IH].
Qed.

Lemma cell_at_width (w : nat) df i j c :
  Forall (fun row => length row = w) df ->
  cell_at df i j = Some c -> (j < w)%nat.
Proof.
  intros Hdf. unfold cell_at.
  destruct (df !! i) as [row|] eqn:Hrow; [|done].
  cbn. intros Hc%lookup_lt_Some.
  rewrite Forall_forall in Hdf.
  by rewrite <- (Hdf row) by by eapply list_elem_of_lookup_2.
Qed.

(** The cells of a filled frame of width [w], for a row [last] above it
    that is empty or of that width. *)
Lemma ffill_from_cells (w : nat) last df i j :
  Forall (fun row => length row = w) df ->
  (cell_at (ffill_from last df) i j = Some None ->
   (forall v, last !! j <> Some (Some v))
   /\ forall k v, (k <= i)%nat -> cell_at df k j <> Some (Some v))
  /\ (forall v, cell_at (ffill_from last df) i j = Some (Some v) ->
      (last !! j = Some (Some v)
       /\ forall m, (m <= i)%nat -> cell_at df m j = Some None)
      \/ exists k, (k <= i)%nat /\ cell_at df k j = Some (Some v)
                   /\ forall m, (k < m <= i)%nat -> cell_at df m j = Some None).
Proof.
  intros Hdf. revert last i.
  induction Hdf as [|row df Hrow Hdf IH]; intros last i.
  { split; [done|]. by intros v. }
  cbn [ffill_from]. destruct i as [|i].
  - rewrite cell_at_0, lookup_fill_row. split.
    + intros Hcell. destruct (row !! j) as [[v|]|] eqn:Hj; try done.
      injection Hcell as Hcell. split.
      * intros v Hv. by rewrite Hv in Hcell.
      * intros k v Hk. assert (k = 0)%nat as -> by lia.
        rewrite cell_at_0. unfold cell in *. by rewrite Hj.
    + intros v Hcell. destruct (row !! j) as [[v'|]|] eqn:Hj; try done.
      * injection Hcell as ->. right. exists 0%nat.
        split; [lia|]. split; [rewrite cell_at_0; unfold cell in *; by rewrite Hj|]. intros m ?. lia.
      * injection Hcell as Hcell. left. split.
        { unfold cell in *. destruct (last !! j) as [c|]; cbn in Hcell;
            [by subst|done]. }
        intros m Hm. assert (m = 0)%nat as -> by lia.
        rewrite cell_at_0. unfold cell in *. by rewrite Hj.
  - rewrite cell_at_S.
    destruct (IH (fill_row last row) i) as [IHgap IHval].
    assert (forall c, cell_at (ffill_from (fill_row last row) df) i j = Some c ->
              exists c0, row !! j = Some c0) as Hcol.
    { intros c Hc. apply lookup_lt_is_Some. rewrite Hrow.
      eapply cell_at_width; [|done]. by apply ffill_from_width. }
    split.
    + intros Hcell. destruct (Hcol _ Hcell) as [c0 Hc0].
      destruct (IHgap Hcell) as [Hfill Hrest].
      rewrite lookup_fill_row in Hfill. unfold cell in *. rewrite Hc0 in Hfill.
      destruct c0 as [v0|]; [by specialize (Hfill v0)|].
      split.
      * intros v Hv. apply (Hfill v). by rewrite Hv.
      * intros [|k] v Hk; [rewrite cell_at_0; unfold cell in *; by rewrite Hc0|].
        rewrite cell_at_S. apply Hrest. lia.
    + intros v Hcell. destruct (Hcol _ Hcell) as [c0 Hc0].
      destruct (IHval v Hcell) as [[Hfill Hrest]|(k & Hk & Hkv & Hmid)].
      * rewrite lookup_fill_row in Hfill. unfold cell in *. rewrite Hc0 in Hfill.
        destruct c0 as [v0|].
        { injection Hfill as ->. right. exists 0%nat.
          split; [lia|].
          split; [rewrite cell_at_0; unfold cell in *; by rewrite Hc0|].
          intros [|m] Hm; [lia|]. rewrite cell_at_S. apply Hrest. lia. }
        left. split.
        { unfold cell in *. destruct (last !! j) as [c|]; cbn in Hfill;
            [|done]. by injection Hfill as ->. }
        intros [|m] Hm; [rewrite cell_at_0; unfold cell in *; by rewrite Hc0|].
        rewrite cell_at_S. apply Hrest. lia.
      * right. exists (S k). split; [lia|]. split; [by rewrite cell_at_S|].
        intros [|m] Hm; [lia|]. rewrite cell_at_S. apply Hmid. lia.
Qed.
End FillFacts.

(** X6: in a frame of equal rows, a cell that [ffill] leaves missing has
    no value above it in its column, and a cell that holds a value holds
    the nearest value at or above it in its column. *)
Theorem ffill_cells (w : nat) (df : frame) :
  Forall (fun row => length row = w) df ->
  (forall i j, cell_at (ffill df) i j = Some None ->
     forall k v, (k <= i)%nat -> cell_at df k j <> Some (Some v))
  /\ (forall i j v, cell_at (ffill df) i j = Some (Some v) ->
       exists k, (k <= i)%nat /\ cell_at df k j = Some (Some v)
                 /\ forall m, (k < m <= i)%nat -> cell_at df m j = Some None).
Proof.
  intros Hdf. split.
  - intros i j Hcell.
    by destruct (ffill_from_cells w [] df i j Hdf) as [Hgap _];
      destruct (Hgap Hcell).
  - intros i j v Hcell.
    destruct (ffill_from_cells w [] df i j Hdf) as [_ Hval].
    by destruct (Hval v Hcell) as [[? _]|?].
Qed.

Lemma ffill_cells_witness :
  (forall i j, cell_at (ffill gaps_4) i j = Some None ->
     forall k v, (k <= i)%nat -> cell_at gaps_4 k j <> Some (Some v))
  /\ (forall i j v, cell_at (ffill gaps_4) i j = Some (Some v) ->
       exists k, (k <= i)%nat /\ cell_at gaps_4 k j = Some (Some v)
                 /\ forall m, (k < m <= i)%nat ->
                              cell_at gaps_4 m j = Some None).
Proof.
  apply (ffill_cells 2 gaps_4). vm_compute. repeat constructor.
Defined.

Example ffill_gaps_4 :
  ffill gaps_4
  = [ [None; Some (u "A")]; [Some (u "x"); Some (u "A")];
      [Some (u "x"); Some (u "A")]; [Some (u "y"); Some (u "B")] ].
Proof. vm_compute. reflexivity. Qed.

(** X7: after [dropna(how='all').ffill()] every row has a value, and
    doing the two steps again changes nothing. *)
Theorem clean_request_frame_rows (df : frame) :
  Forall (fun row => existsb notna row = true) (clean_request_frame df)
  /\ clean_request_frame (clean_request_frame df) = clean_request_frame df
  /\ (length (clean_request_frame df) <= length df)%nat.
Proof.
  assert (Forall (fun row => existsb notna row = true) (clean_request_frame df))
    as Hall.
  { apply ffill_from_notna, Forall_forall.
    by intros row [? _]%list_elem_of_filter. }
  split; [done|]. split.
  - unfold clean_request_frame at 1.
    assert (dropna_all (clean_request_frame df) = clean_request_frame df) as ->.
    { unfold dropna_all. induction Hall as [|row rows Hrow Hall IH]; [done|].
      rewrite filter_cons, decide_True by done. by f_equal. }
    apply ffill_from_idemp.
  - unfold clean_request_frame, ffill. rewrite length_ffill_from.
    apply length_filter.
Qed.

(** ** Default columns of the catalogue ([load_nomenclature_data]) *)

Section DefaultColumns.
Variable nrows : nat.
Implicit Types df : columns.
Implicit Types cs : list string.

Lemma add_default_column_prefix df col :
  df `prefix_of` add_default_column nrows df col.
Proof.
  unfold add_default_column. case_decide; [done|]. by apply prefix_app_r.
Qed.

Lemma add_columns_prefix cs df :
  df `prefix_of` fold_left (add_default_column nrows) cs df.
Proof.
  revert df. induction cs as [|c cs IH]; intros df; [done|].
  cbn [fold_left]. etrans; [apply add_default_column_prefix|apply IH].
Qed.

Lemma elem_of_names_prefix df df' col :
  df `prefix_of` df' -> col ∈ df.*1 -> col ∈ df'.*1.
Proof. intros [k ->]. rewrite fmap_app. set_solver. Qed.

Lemma column_values_prefix df df' col vals :
  df `prefix_of` df' ->
  column_values col df = Some vals -> column_values col df' = Some vals.
Proof.
  intros [k ->]. unfold column_values.
  destruct (list_find _ df) as [[i kv]|] eqn:Hfind; [|done].
  by rewrite (list_find_app_l _ _ _ _ _ Hfind).
Qed.

Lemma column_values_appended df col vals :
  col ∉ df.*1 -> column_values col (df ++ [(col, vals)]) = Some vals.
Proof.
  intros Hcol. unfold column_values. rewrite list_find_app_r.
  - cbn. by rewrite decide_True.
  - apply list_find_None, Forall_forall. intros [c v] Hin Heq.
    apply Hcol. cbn in Heq. subst c.
    by apply (list_elem_of_fmap_2 fst) in Hin.
Qed.

Lemma add_columns_present cs df col :
  col ∈ cs -> col ∈ (fold_left (add_default_column nrows) cs df).*1.
Proof.
  revert df. induction cs as [|c cs IH]; intros df; [by intros ?%elem_of_nil|].
  cbn [fold_left]. intros [->|Hcol]%elem_of_cons; [|by apply IH].
  eapply elem_of_names_prefix; [apply add_columns_prefix|].
  unfold add_default_column. case_decide; [done|].
  rewrite fmap_app. set_solver.
Qed.

Lemma add_columns_new cs df col :
  NoDup cs -> col ∈ cs -> col ∉ df.*1 ->
  column_values col (fold_left (add_default_column nrows) cs df)
  = Some (replicate nrows Net).
Proof.
  intros Hnd. revert df.
  induction Hnd as [|c cs Hc Hnd IH]; intros df; [by intros ?%elem_of_nil|].
  cbn [fold_left]. intros [->|Hcol]%elem_of_cons Hnew.
  - eapply column_values_prefix; [apply add_columns_prefix|].
    unfold add_default_column. rewrite decide_False by done.
    by apply column_values_appended.
  - apply IH; [done|].
    unfold add_default_column. case_decide; [done|].
    rewrite fmap_app. cbn. rewrite elem_of_app, list_elem_of_singleton.
    intros [?| ->]; done.
Qed.

Lemma add_columns_id cs df :
  (forall c, c ∈ cs -> c ∈ df.*1) ->
  fold_left (add_default_column nrows) cs df = df.
Proof.
  induction cs as [|c cs IH]; intros Hcs; [done|].
  cbn [fold_left]. unfold add_default_column at 2.
  rewrite decide_True by (apply Hcs; by left).
  apply IH. intros c' Hc'. apply Hcs. by right.
Qed.

Lemma NoDup_required_cols : NoDup required_cols.
Proof. by compute_done. Qed.

(** X8: after the loop over [required_cols] the five columns exist; the
    columns of the file are kept, in place and with their values; a
    required column that the file lacks holds 'Нет' in every row; and a
    second pass adds nothing. *)
Theorem add_default_columns_spec df :
  df `prefix_of` add_default_columns nrows df
  /\ (forall col, col ∈ required_cols ->
                  col ∈ (add_default_columns nrows df).*1)
  /\ (forall col vals, column_values col df = Some vals ->
        column_values col (add_default_columns nrows df) = Some vals)
  /\ (forall col, col ∈ required_cols -> col ∉ df.*1 ->
        column_values col (add_default_columns nrows df)
        = Some (replicate nrows Net))
  /\ add_default_columns nrows (add_default_columns nrows df)
     = add_default_columns nrows df.
Proof.
  unfold add_default_columns. split; [apply add_columns_prefix|].
  split; [intros col; apply add_columns_present|].
  split.
  { intros col vals. apply column_values_prefix, add_columns_prefix. }
  split.
  { intros col. apply add_columns_new, NoDup_required_cols. }
  apply add_columns_id. intros c. apply add_columns_present.
Qed.
End DefaultColumns.

(** ** Entries that share a code *)

Lemma NoDup_constant_length {A} (c : A) (l : list A) :
  NoDup l -> Forall (fun x => x = c) l -> (length l <= 1)%nat.
Proof.
  intros Hnd Hall. destruct Hnd as [|x l Hx Hnd]; [cbn; lia|].
  destruct l as [|y l]; [cbn; lia|].
  inv Hall. match goal with H : Forall _ (_ :: _) |- _ => inv H end.
  exfalso. apply Hx. by left.
Qed.

(** X9: when all entries of the frame carry one code (as they do when the
    file has no column 'Код' and the loader fills it with 'Нет'), a query
    gets at most one result. *)
Theorem select_one_code (priority : priority_column) (top_n : nat)
    (group_name code : str) (temp_df : list (NomRow * Q)) :
  Forall (fun row => Kod row.1 = code) temp_df ->
  (length (select priority top_n group_name temp_df) <= 1)%nat.
Proof.
  intros Hcode. rewrite select_spec, length_fmap.
  set (rows := take top_n _).
  rewrite <- (length_fmap (fun row : NomRow * Q => Kod row.1)).
  apply (NoDup_constant_length code).
  - unfold rows. rewrite fmap_take, codes_first_by_code.
    eapply sublist_NoDup; [apply NoDup_first_occurrences|apply sublist_take].
  - apply Forall_fmap, Forall_forall. intros row Hrow. cbn.
    rewrite Forall_forall in Hcode. apply Hcode.
    apply (subseteq_take top_n), (first_by_code_subseteq []) in Hrow.
    apply subseteq_take in Hrow. unfold sort_values in Hrow.
    by rewrite stable_sort_Permutation in Hrow.
Qed.

Lemma select_one_code_witness :
  (length (select ByOformleno 3 (u "маркер")
             [ ({| Nomenklatura := u "Маркер"; Kod := Net; Oformleno := Da;
                   TovarProizvoditelya := Net; OsnovnoyAssortiment := Net |},
                70%Q);
               ({| Nomenklatura := u "Файл"; Kod := Net; Oformleno := Net;
                   TovarProizvoditelya := Net; OsnovnoyAssortiment := Net |},
                0%Q) ]) <= 1)%nat.
Proof.
  apply (select_one_code ByOformleno 3 (u "маркер") Net).
  repeat constructor.
Defined.

(** ** The order of strings and of rows *)

Section Orders.
Implicit Types x y z : str.

Lemma str_ltb_trans x y z :
  str_ltb x y = true -> str_ltb y z = true -> str_ltb x z = true.
Proof.
  revert y z. induction x as [|a x IH]; intros [|b y] [|c z]; try done.
  cbn [str_ltb]. intros Hxy Hyz.
  apply orb_true_iff in Hxy as [Hab|[Hab Hxy]%andb_true_iff];
    apply orb_true_iff in Hyz as [Hbc|[Hbc Hyz]%andb_true_iff];
    rewrite ?N.ltb_lt, ?N.eqb_eq in *; subst.
  - assert ((a <? c) = true) as -> by (apply N.ltb_lt; lia). done.
  - assert ((a <? c) = true) as -> by (by apply N.ltb_lt). done.
  - assert ((b <? c) = true) as -> by (by apply N.ltb_lt). done.
  - rewrite N.eqb_refl, (IH _ _ Hxy Hyz). apply orb_true_r.
Qed.

Lemma str_ltb_total x y :
  str_ltb x y = false -> str_ltb y x = false -> x = y.
Proof.
  revert y. induction x as [|a x IH]; intros [|b y]; try done.
  cbn [str_ltb]. intros [Hab Hxy]%orb_false_iff [Hba Hyx]%orb_false_iff.
  apply N.ltb_ge in Hab, Hba. assert (a = b) as -> by lia.
  rewrite N.eqb_refl in Hxy, Hyx. cbn [andb] in *. f_equal. by apply IH.
Qed.

#[local] Instance not_after_str_ltb_trans : Transitive (not_after str_ltb).
Proof.
  intros x y z Hxy Hyz. unfold not_after in *.
  destruct (str_ltb z x) eqn:Hzx; [|done].
  destruct (str_ltb x y) eqn:Hlt.
  - by rewrite (str_ltb_trans _ _ _ Hzx Hlt) in Hyz.
  - rewrite (str_ltb_total x y Hlt Hxy) in Hzx. congruence.
Qed.

Lemma sorts_before_false priority (a b : NomRow * Q) :
  sorts_before priority b a = false
  <-> str_ltb (column priority a.1) (column priority b.1) = false
      /\ (column priority a.1 = column priority b.1 -> (b.2 <= a.2)%Q).
Proof.
  unfold sorts_before, str_eqb. rewrite orb_false_iff, andb_false_iff.
  rewrite bool_decide_eq_false, Qltb_ge. split.
  - intros [Hlt [Hne|Hle]]; (split; [done|]); [congruence|done].
  - intros [Hlt Hle]. split; [done|].
    destruct (decide (column priority b.1 = column priority a.1)) as [Heq|Hne];
      [right; by apply Hle|by left].
Qed.

#[local] Instance not_after_sorts_before_trans priority :
  Transitive (not_after (sorts_before priority)).
Proof.
  intros a b c. unfold not_after. rewrite !sorts_before_false.
  intros [Hab Hqab] [Hbc Hqbc].
  assert (not_after str_ltb (column priority c.1) (column priority a.1)) as Hac.
  { by trans (column priority b.1). }
  split; [done|]. intros Heq. rewrite Heq in *.
  assert (column priority b.1 = column priority c.1) as Hb.
  { by apply str_ltb_total. }
  specialize (Hqab (eq_sym Hb)). specialize (Hqbc Hb).
  by apply (Qle_trans _ b.2).
Qed.

Lemma StronglySorted_sublist {A} (R : relation A) (l1 l2 : list A) :
  l1 `sublist_of` l2 -> StronglySorted R l2 -> StronglySorted R l1.
Proof.
  induction 1 as [|x l1 l2 Hsub IH|x l1 l2 Hsub IH]; intros Hl2; [done| |].
  - apply StronglySorted_cons in Hl2 as [Hx Hl2].
    constructor; [by apply IH|].
    apply Forall_forall. intros y Hy. rewrite Forall_forall in Hx.
    apply Hx. by eapply elem_of_sublist.
  - apply StronglySorted_cons in Hl2 as [_ Hl2]. by apply IH.
Qed.

Lemma sort_values_StronglySorted priority (df : list (NomRow * Q)) :
  StronglySorted (not_after (sorts_before priority)) (sort_values priority df).
Proof.
  apply Sorted_StronglySorted; [apply _|].
  apply stable_sort_Sorted, sorts_before_asym.
Qed.

Lemma first_by_code_sublist seen (rows : list (NomRow * Q)) :
  first_by_code seen rows `sublist_of` rows.
Proof.
  revert seen. induction rows as [|row rows IH]; intros seen; [done|].
  cbn [first_by_code]. destruct (decide (Kod row.1 ∈ seen)).
  - by apply sublist_cons.
  - by apply sublist_skip.
Qed.
End Orders.

(** X10: the results of a query are rows of the sorted frame in the order
    of that frame: no result is outranked by a later one, that is, a later
    result has a flag that is not greater and, with an equal flag, a
    similarity that is not greater. *)
Theorem select_in_rank_order (priority : priority_column) (top_n : nat)
    (group_name : str) (temp_df : list (NomRow * Q)) :
  exists rows,
    select priority top_n group_name temp_df = make_result group_name <$> rows
    /\ rows `sublist_of` sort_values priority temp_df
    /\ StronglySorted
         (fun a b =>
            str_ltb (column priority a.1) (column priority b.1) = false
            /\ (column priority a.1 = column priority b.1 -> (b.2 <= a.2)%Q))
         rows.
Proof.
  eexists. split; [apply select_spec|].
  assert (take top_n (first_by_code []
            (head (top_n * 2) (sort_values priority temp_df)))
          `sublist_of` sort_values priority temp_df) as Hsub.
  { etrans; [apply sublist_take|].
    etrans; [apply first_by_code_sublist|apply sublist_take]. }
  split; [done|].
  eapply StronglySorted_weaken;
    [|eapply StronglySorted_sublist;
        [exact Hsub|apply sort_values_StronglySorted]].
  intros a b _ _ Hab. by apply sorts_before_false.
Qed.

(** X11: for a frame that is not empty and [top_n] of 1 or more, a query
    has a first result, and it is made from an entry that no entry of the
    frame outranks. *)
Theorem select_best_first (priority : priority_column) (top_n : nat)
    (group_name : str) (temp_df : list (NomRow * Q)) :
  temp_df <> [] -> (0 < top_n)%nat ->
  exists best others,
    select priority top_n group_name temp_df
    = make_result group_name best :: others
    /\ best ∈ temp_df
    /\ Forall (fun row =>
                 str_ltb (column priority best.1) (column priority row.1) = false
                 /\ (column priority best.1 = column priority row.1 ->
                     (row.2 <= best.2)%Q))
              temp_df.
Proof.
  intros Hne Htop. rewrite select_spec.
  pose proof (sort_values_StronglySorted priority temp_df) as Hsorted.
  pose proof (stable_sort_Permutation (sorts_before priority) temp_df) as Hperm.
  fold (sort_values priority temp_df) in Hperm.
  destruct (sort_values priority temp_df) as [|best rest] eqn:Hsort.
  { by apply Permutation_nil in Hperm. }
  destruct top_n as [|n]; [lia|].
  exists best. eexists. split.
  { cbn [Nat.mul Nat.add head take first_by_code].
    rewrite decide_False by by intros ?%elem_of_nil.
    cbn [take fmap list_fmap]. reflexivity. }
  split; [rewrite <- Hperm; by left|].
  apply StronglySorted_cons in Hsorted as [Hbest _].
  apply Forall_forall. intros row Hrow. apply sorts_before_false.
  rewrite <- Hperm in Hrow. apply elem_of_cons in Hrow as [->|Hrow].
  - unfold sorts_before, str_eqb. rewrite str_ltb_irrefl.
    rewrite bool_decide_eq_true_2 by done. cbn. apply Qltb_ge, Qle_refl.
  - rewrite Forall_forall in Hbest. by apply Hbest.
Qed.

Lemma select_best_first_witness :
  exists best others,
    select ByOformleno 1 (u "маркер") (zip catalog_2 [100; 0]%Q)
    = make_result (u "маркер") best :: others
    /\ best ∈ zip catalog_2 [100; 0]%Q
    /\ Forall (fun row =>
                 str_ltb (column ByOformleno best.1) (column ByOformleno row.1)
                 = false
                 /\ (column ByOformleno best.1 = column ByOformleno row.1 ->
                     (row.2 <= best.2)%Q))
              (zip catalog_2 [100; 0]%Q).
Proof.
  apply (select_best_first ByOformleno 1 (u "маркер")
           (zip catalog_2 [100; 0]%Q)); [discriminate|lia].
Defined.

(** ** The groups of the request *)

Section GroupFacts.
Implicit Types rows : list ReqRow.
Implicit Types key : ReqRow -> str.

Lemma fst_map_pair {A B} (f : A -> B) (l : list A) :
  (map (fun k => (k, f k)) l).*1 = l.
Proof. induction l; by f_equal/=. Qed.

Lemma snd_map_pair {A B} (f : A -> B) (l : list A) :
  (map (fun k => (k, f k)) l).*2 = f <$> l.
Proof. induction l; by f_equal/=. Qed.

Lemma groupby_keys key rows :
  (groupby key rows).*1
  = stable_sort str_ltb (first_occurrences [] (key <$> rows)).
Proof. unfold groupby. by rewrite fst_map_pair, map_fmap. Qed.

Lemma elem_of_groupby_keys key rows k :
  k ∈ (groupby key rows).*1 <-> exists row, row ∈ rows /\ key row = k.
Proof.
  rewrite groupby_keys, stable_sort_Permutation, elem_of_first_occurrences.
  rewrite list_elem_of_fmap. split.
  - intros [(row & -> & Hrow) _]. by exists row.
  - intros (row & Hrow & <-). split; [by exists row|by intros ?%elem_of_nil].
Qed.

Lemma groupby_keys_sorted key rows :
  StronglySorted (not_after str_ltb) (groupby key rows).*1.
Proof.
  rewrite groupby_keys.
  apply Sorted_StronglySorted; [apply not_after_str_ltb_trans|].
  apply stable_sort_Sorted. apply str_ltb_asym.
Qed.

Lemma groupby_keys_NoDup key rows : NoDup (groupby key rows).*1.
Proof.
  rewrite groupby_keys, stable_sort_Permutation.
  apply NoDup_first_occurrences.
Qed.

Lemma length_groupby key rows : (length (groupby key rows) <= length rows)%nat.
Proof.
  rewrite <- (length_fmap fst), groupby_keys, stable_sort_Permutation.
  rewrite <- (length_fmap key rows).
  generalize (key <$> rows). intros l. generalize (@nil str).
  induction l as [|x l IH]; intros seen; [done|].
  cbn [first_occurrences length]. destruct (decide (x ∈ seen)).
  - specialize (IH seen). lia.
  - specialize (IH (x :: seen)). cbn [length]. lia.
Qed.

Lemma elem_of_groupby key rows k group :
  (k, group) ∈ groupby key rows ->
  group = filter (fun row => key row = k) rows.
Proof.
  unfold groupby. rewrite map_fmap.
  by intros (k' & [= -> ->] & _)%list_elem_of_fmap.
Qed.

Lemma groups_cons_other key row rows (ks : list str) :
  key row ∉ ks ->
  concat ((fun k => filter (fun r => key r = k) (row :: rows)) <$> ks)
  = concat ((fun k => filter (fun r => key r = k) rows) <$> ks).
Proof.
  induction ks as [|k ks IH]; intros Hrow; [done|].
  cbn [fmap list_fmap concat]. rewrite filter_cons.
  rewrite decide_False by (intros Heq; apply Hrow; rewrite Heq; by left).
  f_equal. apply IH. intros Hin. apply Hrow. by right.
Qed.

Lemma groups_cons key row rows (ks : list str) :
  NoDup ks -> key row ∈ ks ->
  concat ((fun k => filter (fun r => key r = k) (row :: rows)) <$> ks)
  ≡ₚ row :: concat ((fun k => filter (fun r => key r = k) rows) <$> ks).
Proof.
  induction 1 as [|k ks Hnotin Hnd IH]; intros Hk;
    [by apply elem_of_nil in Hk|].
  cbn [fmap list_fmap concat]. rewrite filter_cons.
  destruct (decide (key row = k)) as [Heq|Hne].
  - rewrite groups_cons_other by by rewrite Heq. done.
  - apply elem_of_cons in Hk as [?|Hk]; [done|].
    rewrite (IH Hk). by rewrite Permutation_middle.
Qed.

(** The rows of the groups of the keys [ks], for keys without repetition
    that cover the rows, are the rows of the frame. *)
Lemma groups_Permutation key rows (ks : list str) :
  NoDup ks -> (forall row, row ∈ rows -> key row ∈ ks) ->
  concat ((fun k => filter (fun row => key row = k) rows) <$> ks) ≡ₚ rows.
Proof.
  intros Hnd. induction rows as [|row rows IH]; intros Hcover.
  - clear. induction ks as [|k ks IHks]; [done|]. by cbn.
  - rewrite groups_cons; [|done|apply Hcover; by left].
    constructor. apply IH. intros r Hr. apply Hcover. by right.
Qed.
End GroupFacts.

(** X12: grouping loses and repeats no request row: the keys of the groups
    are distinct and in ascending order, every group is the list, in the
    order of the frame, of the rows that have its key, no group is empty,
    and the groups together hold the rows of the frame. *)
Theorem groupby_partition (key : ReqRow -> str) (rows : list ReqRow) :
  NoDup (groupby key rows).*1
  /\ StronglySorted (fun k1 k2 => str_ltb k2 k1 = false) (groupby key rows).*1
  /\ Forall (fun g => g.2 = filter (fun row => key row = g.1) rows /\ g.2 <> [])
            (groupby key rows)
  /\ concat (groupby key rows).*2 ≡ₚ rows.
Proof.
  split; [apply groupby_keys_NoDup|].
  split; [apply groupby_keys_sorted|].
  split.
  - apply Forall_forall. intros [k group] Hin.
    pose proof (elem_of_groupby _ _ _ _ Hin) as ->. split; [done|].
    apply (list_elem_of_fmap_2 fst) in Hin.
    apply elem_of_groupby_keys in Hin as (row & Hrow & Hkey).
    intros Hnil. assert (row ∈ filter (fun row => key row = k) rows) as Hr
      by by apply list_elem_of_filter.
    cbn in Hnil. rewrite Hnil in Hr. by apply elem_of_nil in Hr.
  - assert ((groupby key rows).*2
            = (fun k => filter (fun row => key row = k) rows)
                <$> (groupby key rows).*1) as ->.
    { unfold groupby. by rewrite fst_map_pair, snd_map_pair. }
    apply groups_Permutation; [apply groupby_keys_NoDup|].
    intros row Hrow. apply elem_of_groupby_keys. by exists row.
Qed.

(** ** The results of a run *)

Lemma prefix_bonus_in_range prefix names idx normalized adjusted :
  Forall in_range normalized ->
  prefix_bonus prefix names idx normalized = Ok adjusted ->
  Forall in_range adjusted.
Proof.
  revert idx normalized.
  induction names as [|name names IH]; intros idx normalized Hrange.
  - by intros [= <-].
  - cbn [prefix_bonus]. destruct (startswith name prefix); [|by apply IH].
    destruct (normalized !! idx) as [x|] eqn:Hx; [|done].
    apply IH, Forall_insert; [done|].
    apply min2_in_range. rewrite Forall_forall in Hrange.
    apply list_elem_of_lookup_2 in Hx. by destruct (Hrange x Hx).
Qed.

Lemma adjusted_scores_in_range processed processed_query scores adjusted :
  adjusted_scores processed processed_query scores = Ok adjusted ->
  Forall in_range adjusted.
Proof.
  unfold adjusted_scores.
  destruct (normalize_scores scores) as [normalized|e] eqn:Hnorm; [|done].
  cbn [mbind result_bind]. apply prefix_bonus_in_range.
  by apply normalize_scores_in_range in Hnorm as [_ ?].
Qed.

Lemma length_select priority top_n group_name temp_df :
  (length (select priority top_n group_name temp_df) <= top_n)%nat.
Proof. rewrite select_spec, length_fmap, length_take. lia. Qed.

Section ResultFacts.
Variable isalnum : N -> bool.
Variable lower : str -> str.
Variable bm25_index : Type.
Variable BM25Okapi : list (list str) -> result bm25_index.
Variable get_scores : bm25_index -> list str -> list Q.

Lemma process_group_part nomenclature processed bm25 selected_columns priority
    top_n group_name group_df part :
  process_group isalnum lower bm25_index get_scores nomenclature processed
    bm25 selected_columns priority top_n group_name group_df = Ok part ->
  group_part nomenclature top_n (group_name, group_df) part.
Proof.
  unfold process_group.
  destruct (adjusted_scores _ _ _) as [adjusted|e] eqn:Hadj; [|done].
  cbn [mbind result_bind]. unfold assign_similarity.
  case_decide; [|done]. cbn [mbind result_bind mret result_ret].
  intros [= <-]. split; [apply length_select|].
  apply Forall_forall. intros r ([row x] & Hrow & ->)%elem_of_select.
  cbn [make_result r_Zapros r_Shodstvo r_Nomenklatura r_Kod r_Status fst snd].
  split; [done|]. split.
  - apply adjusted_scores_in_range in Hadj. rewrite Forall_forall in Hadj.
    by apply Hadj, (elem_of_zip_r row x nomenclature adjusted).
  - exists row. split; [|done].
    by apply (elem_of_zip_l row x nomenclature adjusted).
Qed.

Lemma process_groups_parts nomenclature processed bm25 selected_columns
    priority top_n grouped results out :
  process_groups isalnum lower bm25_index get_scores nomenclature processed
    bm25 selected_columns priority top_n grouped results = Ok out ->
  exists parts,
    Forall2 (group_part nomenclature top_n) grouped parts
    /\ out = results ++ concat parts.
Proof.
  revert results. induction grouped as [|[group_name group_df] grouped IH];
    intros results.
  - intros [= <-]. exists []. split; [constructor|by rewrite app_nil_r].
  - cbn [process_groups].
    destruct (process_group _ _ _ _ _ _ _ _ _ _ _ _) as [part|e] eqn:Hpart;
      [|done].
    cbn [mbind result_bind]. intros (parts & Hparts & ->)%IH.
    exists (part :: parts). split.
    + constructor; [by eapply process_group_part|done].
    + cbn [concat]. by rewrite app_assoc.
Qed.

Lemma process_grouped_requests_parts self selected_columns priority top_n out :
  process_grouped_requests isalnum lower bm25_index BM25Okapi get_scores self
    selected_columns priority top_n = Ok out ->
  exists requests nomenclature parts,
    request_df self = Some requests
    /\ nomenclature_df self = Some nomenclature
    /\ Forall2 (group_part nomenclature top_n)
         (groupby (combined_key selected_columns) requests) parts
    /\ out = concat parts.
Proof.
  unfold process_grouped_requests.
  destruct (request_df self) as [requests|]; [|done].
  destruct (nomenclature_df self) as [nomenclature|]; [|done].
  destruct (BM25Okapi _) as [bm25|e]; [|done].
  cbn [mbind result_bind]. intros (parts & Hparts & ->)%process_groups_parts.
  by exists requests, nomenclature, parts.
Qed.
End ResultFacts.

Lemma parts_sorted (R : relation str) nomenclature top_n
    (grouped : list (str * list ReqRow)) (parts : list (list MatchResult)) :
  (forall k, R k k) ->
  Forall2 (group_part nomenclature top_n) grouped parts ->
  StronglySorted R grouped.*1 ->
  StronglySorted R (r_Zapros <$> concat parts)
  /\ Forall (fun r => r_Zapros r ∈ grouped.*1) (concat parts).
Proof.
  intros Hrefl. induction 1 as [|g part grouped parts [_ Hpart] Hparts IH];
    intros Hsorted; [by split; constructor|].
  cbn [fmap list_fmap] in Hsorted.
  apply StronglySorted_cons in Hsorted as [Hg Hsorted].
  destruct (IH Hsorted) as [IHsorted IHkeys]. cbn [concat].
  assert (Forall (fun r => r_Zapros r = g.1) part) as Hkey.
  { eapply Forall_impl; [exact Hpart|]. by intros r [? _]. }
  split.
  - rewrite fmap_app. apply StronglySorted_app_2; [| |done].
    + intros k1 k2 (r1 & -> & Hr1)%list_elem_of_fmap
                   (r2 & -> & Hr2)%list_elem_of_fmap.
      rewrite Forall_forall in Hkey. rewrite Forall_forall in IHkeys.
      rewrite Forall_forall in Hg.
      rewrite (Hkey r1 Hr1). by apply Hg, IHkeys.
    + clear -Hkey Hrefl. induction Hkey as [|r part Hr Hkey IH]; [constructor|].
      cbn [fmap list_fmap]. constructor; [done|].
      apply Forall_forall. intros k (r' & -> & Hr')%list_elem_of_fmap.
      rewrite Forall_forall in Hkey. by rewrite Hr, (Hkey r' Hr').
  - apply Forall_app. split.
    + eapply Forall_impl; [exact Hkey|]. intros r ->. by left.
    + eapply Forall_impl; [exact IHkeys|]. intros r Hr. by right.
Qed.

Lemma parts_length nomenclature top_n
    (grouped : list (str * list ReqRow)) (parts : list (list MatchResult)) :
  Forall2 (group_part nomenclature top_n) grouped parts ->
  (length (concat parts) <= top_n * length grouped)%nat.
Proof.
  induction 1 as [|g part grouped parts [Hlen _] Hparts IH]; [cbn; lia|].
  cbn [concat length]. rewrite length_app. lia.
Qed.


Section RunFacts.
Variable isalnum : N -> bool.
Variable lower : str -> str.
Variable bm25_index : Type.
Variable BM25Okapi : list (list str) -> result bm25_index.
Variable get_scores : bm25_index -> list str -> list Q.

(** X13: the results of a run come group by group in the ascending order
    of the group keys, not in the order of the request; and the 'Запрос'
    of every result is the combined key of a row of the request. *)
Theorem results_in_key_order (self : DataProcessor)
    (selected_columns : list string) (priority : priority_column)
    (top_n : nat) (requests : list ReqRow) (out : list MatchResult) :
  request_df self = Some requests ->
  process_grouped_requests isalnum lower bm25_index BM25Okapi get_scores self
    selected_columns priority top_n = Ok out ->
  StronglySorted (fun k1 k2 => str_ltb k2 k1 = false) (r_Zapros <$> out)
  /\ Forall (fun r => exists row, row ∈ requests
                        /\ r_Zapros r = combined_key selected_columns row)
            out.
Proof.
  intros Hreq (requests' & nomenclature & parts & Hreq' & _ & Hparts & ->)
    %process_grouped_requests_parts.
  rewrite Hreq in Hreq'. injection Hreq' as <-.
  destruct (parts_sorted (not_after str_ltb) _ _ _ _ str_ltb_irrefl Hparts
              (groupby_keys_sorted _ _)) as [Hsorted Hkeys].
  split; [done|].
  eapply Forall_impl; [exact Hkeys|].
  intros r (row & Hrow & Hkey)%elem_of_groupby_keys. by exists row.
Qed.

(** X14: a run returns at most [top_n] results for each group, and there
    are at most as many groups as rows in the request. *)
Theorem results_count (self : DataProcessor)
    (selected_columns : list string) (priority : priority_column)
    (top_n : nat) (requests : list ReqRow) (out : list MatchResult) :
  request_df self = Some requests ->
  process_grouped_requests isalnum lower bm25_index BM25Okapi get_scores self
    selected_columns priority top_n = Ok out ->
  (length out
   <= top_n * length (groupby (combined_key selected_columns) requests))%nat
  /\ (length (groupby (combined_key selected_columns) requests)
      <= length requests)%nat.
Proof.
  intros Hreq (requests' & nomenclature & parts & Hreq' & _ & Hparts & ->)
    %process_grouped_requests_parts.
  rewrite Hreq in Hreq'. injection Hreq' as <-.
  split; [by eapply parts_length|apply length_groupby].
Qed.

End RunFacts.

Lemma results_in_key_order_witness :
  StronglySorted (fun k1 k2 => str_ltb k2 k1 = false)
    (r_Zapros <$> [board_marker_for (u "!"); board_marker_for (u "?")])
  /\ Forall (fun r => exists row,
               row ∈ [row_of [("a"%string, u "?")]; row_of [("a"%string, u "!")]]
               /\ r_Zapros r = combined_key ["a"%string] row)
            [board_marker_for (u "!"); board_marker_for (u "?")].
Proof.
  apply (results_in_key_order Ru.isalnum Ru.lower TermCount.bm25_index
           TermCount.BM25Okapi TermCount.get_scores two_requests ["a"%string]
           ByOformleno 1);
    [reflexivity|vm_compute; reflexivity].
Defined.

Lemma results_count_witness :
  (length [board_marker_for (u "!"); board_marker_for (u "?")]
   <= 1 * length (groupby (combined_key ["a"%string])
                    [ row_of [("a"%string, u "?")];
                      row_of [("a"%string, u "!")] ]))%nat
  /\ (length (groupby (combined_key ["a"%string])
                [ row_of [("a"%string, u "?")]; row_of [("a"%string, u "!")] ])
      <= length [ row_of [("a"%string, u "?")];
                  row_of [("a"%string, u "!")] ])%nat.
Proof.
  apply (results_count Ru.isalnum Ru.lower TermCount.bm25_index
           TermCount.BM25Okapi TermCount.get_scores two_requests ["a"%string]
           ByOformleno 1);
    [reflexivity|vm_compute; reflexivity].
Defined.


(** ** The tokens of a query *)

Section TokenFacts.
Variable isalnum : N -> bool.
Variable lower : str -> str.

Lemma split_from_tokens (P : N -> Prop) (s cur : str) :
  Forall P s -> Forall P cur ->
  Forall (fun c => isspace c = false) cur ->
  Forall (fun t => t <> [] /\ Forall (fun c => P c /\ isspace c = false) t)
         (split_from s cur).
Proof.
  intros Hs. revert cur. induction Hs as [|c s Hc Hs IH]; intros cur HP Hcur.
  - cbn [split_from]. destruct cur as [|d cur]; [constructor|].
    constructor; [|constructor]. split.
    + intros Hnil%(f_equal length). rewrite length_rev in Hnil. done.
    + apply Forall_forall. intros x Hx. apply list_elem_of_In, in_rev in Hx.
      apply list_elem_of_In in Hx. rewrite Forall_forall in HP, Hcur.
      split; [by apply HP|by apply Hcur].
  - cbn [split_from]. destruct (isspace c) eqn:Hspace.
    + destruct cur as [|d cur]; [by apply IH|].
      constructor; [|by apply IH]. split.
      * intros Hnil%(f_equal length). rewrite length_rev in Hnil. done.
      * apply Forall_forall. intros x Hx. apply list_elem_of_In, in_rev in Hx.
        apply list_elem_of_In in Hx. rewrite Forall_forall in HP, Hcur.
        split; [by apply HP|by apply Hcur].
    + apply IH; by constructor.
Qed.

Lemma replacement_values_keep :
  forallb (fun kv => forallb (keep isalnum) kv.2) replacements = true ->
  Forall (fun kv => Forall (fun c => keep isalnum c = true) kv.2) replacements.
Proof.
  intros Hvalues. apply Forall_forall. intros kv Hkv.
  rewrite forallb_forall in Hvalues.
  apply list_elem_of_In, Hvalues in Hkv.
  apply Forall_forall. intros c Hc.
  rewrite forallb_forall in Hkv. by apply Hkv, list_elem_of_In.
Qed.

(** X16: every token of a normalised text is not empty and consists of
    alphanumeric characters only, the abbreviations of the table being
    made of alphanumeric characters and whitespace. *)
Theorem tokens_alphanumeric (x : str) :
  forallb (fun kv => forallb (keep isalnum) kv.2) replacements = true ->
  Forall (fun t => t <> [] /\ Forall (fun c => isalnum c = true) t)
         (split (preprocess_text isalnum lower x)).
Proof.
  intros Hvalues%replacement_values_keep.
  pose proof (preprocess_text_keep isalnum lower x Hvalues) as Hkeep.
  eapply Forall_impl;
    [apply (split_from_tokens _ _ [] Hkeep); constructor|].
  intros t [Hne Ht]. split; [done|].
  eapply Forall_impl; [exact Ht|]. intros c [Hc Hspace].
  unfold keep in Hc. by rewrite Hspace, orb_false_r in Hc.
Qed.

End TokenFacts.

Lemma tokens_alphanumeric_witness :
  Forall (fun t => t <> [] /\ Forall (fun c => Ru.isalnum c = true) t)
         (split (preprocess_text Ru.isalnum Ru.lower
                   (u "Перманентный МАРКЕР, черный!"))).
Proof.
  apply (tokens_alphanumeric Ru.isalnum Ru.lower). vm_compute. reflexivity.
Defined.

(** ** Progress *)

Section ProgressFacts.
Variable isalnum : N -> bool.
Variable lower : str -> str.
Variable bm25_index : Type.
Variable get_scores : bm25_index -> list str -> list Q.
Context {W : Type}.
Variable update_progress : nat -> nat -> W -> W.

Lemma process_groups_progress_calls nomenclature processed bm25
    selected_columns priority top_n total_groups group_idx grouped results
    world :
  exists k,
    (k <= length grouped)%nat
    /\ process_groups_progress isalnum lower bm25_index get_scores
         update_progress nomenclature processed bm25 selected_columns
         priority top_n total_groups group_idx grouped results world
       = (fold_left (fun w i => update_progress (S i) total_groups w)
            (seq group_idx k) world,
          process_groups isalnum lower bm25_index get_scores nomenclature
            processed bm25 selected_columns priority top_n grouped results)
    /\ (k = length grouped
        <-> exists out,
              process_groups isalnum lower bm25_index get_scores nomenclature
                processed bm25 selected_columns priority top_n grouped results
              = Ok out).
Proof.
  revert group_idx results world.
  induction grouped as [|[group_name group_df] grouped IH];
    intros group_idx results world.
  - exists 0%nat. split; [done|]. split; [done|]. split; [|done].
    intros _. by exists results.
  - cbn [process_groups_progress process_groups length].
    destruct (process_group _ _ _ _ _ _ _ _ _ _ _ _) as [part|e].
    + cbn [mbind result_bind].
      destruct (IH (S group_idx) (results ++ part)
                  (update_progress (S group_idx) total_groups world))
        as (k & Hk & -> & Hiff).
      exists (S k). split; [lia|]. split; [done|].
      rewrite <- Hiff. lia.
    + exists 0%nat. split; [lia|]. split; [done|].
      split; [done|]. by intros [out ?].
Qed.

(** X18: the callback is called once after each group that has been
    processed, with the counts 1, 2, ... and the number of groups; the
    results are those of the loop without callback; and all groups are
    counted exactly when the run ends without exception. *)
Theorem update_progress_calls nomenclature processed bm25
    (selected_columns : list string) (priority : priority_column)
    (top_n : nat) (grouped : list (str * list ReqRow)) (world : W) :
  exists k,
    (k <= length grouped)%nat
    /\ process_groups_progress isalnum lower bm25_index get_scores
         update_progress nomenclature processed bm25 selected_columns
         priority top_n (length grouped) 0 grouped [] world
       = (fold_left (fun w i => update_progress (S i) (length grouped) w)
            (seq 0 k) world,
          process_groups isalnum lower bm25_index get_scores nomenclature
            processed bm25 selected_columns priority top_n grouped [])
    /\ (k = length grouped
        <-> exists out,
              process_groups isalnum lower bm25_index get_scores nomenclature
                processed bm25 selected_columns priority top_n grouped []
              = Ok out).
Proof. apply process_groups_progress_calls. Qed.
End ProgressFacts.

Lemma gui_queue_values (n k : nat) (queue : list Q) :
  fold_left (fun w i => gui_update_progress (S i) n w) (seq 0 k) queue
  = queue
    ++ ((fun i => (inject_Z (Z.of_nat (S i)) / inject_Z (Z.of_nat n) * 100)%Q)
          <$> seq 0 k).
Proof.
  generalize 0%nat. revert queue.
  induction k as [|k IH]; intros queue start; [by rewrite app_nil_r|].
  cbn [seq fold_left fmap list_fmap]. rewrite IH.
  unfold gui_update_progress. by rewrite <- app_assoc.
Qed.

Lemma percentage_range (i n : nat) :
  (i < n)%nat ->
  (0 < inject_Z (Z.of_nat (S i)) / inject_Z (Z.of_nat n) * 100 <= 100)%Q.
Proof.
  intros Hi.
  assert (0 < inject_Z (Z.of_nat n))%Q as Hn.
  { change 0%Q with (inject_Z 0). rewrite <- Zlt_Qlt. lia. }
  assert (0 < inject_Z (Z.of_nat (S i)))%Q as Hi0.
  { change 0%Q with (inject_Z 0). rewrite <- Zlt_Qlt. lia. }
  assert (inject_Z (Z.of_nat (S i)) <= inject_Z (Z.of_nat n))%Q as Hle.
  { rewrite <- Zle_Qle. lia. }
  assert (0 < inject_Z (Z.of_nat (S i)) / inject_Z (Z.of_nat n))%Q as H0.
  { apply Qlt_shift_div_l; [done|]. lra. }
  assert (inject_Z (Z.of_nat (S i)) / inject_Z (Z.of_nat n) <= 1)%Q as H1.
  { apply Qle_shift_div_r; [done|]. lra. }
  set (r := (inject_Z (Z.of_nat (S i)) / inject_Z (Z.of_nat n))%Q) in *.
  lra.
Qed.

(** X19: with the callback of the GUI, the queue receives one percentage
    for each counted group: all lie above 0 and at most at 100, and when
    all of the groups are counted the last one is 100. *)
Theorem gui_progress_percentages (n k : nat) :
  (k <= n)%nat ->
  Forall (fun v => (0 < v <= 100)%Q)
    (fold_left (fun w i => gui_update_progress (S i) n w) (seq 0 k) [])
  /\ length (fold_left (fun w i => gui_update_progress (S i) n w) (seq 0 k) [])
     = k
  /\ ((0 < n)%nat -> k = n ->
      exists v,
        last (fold_left (fun w i => gui_update_progress (S i) n w)
                (seq 0 k) []) = Some v
        /\ (v == 100)%Q).
Proof.
  intros Hk. rewrite gui_queue_values. cbn [app]. split; [|split].
  - apply Forall_fmap, Forall_forall. intros i Hi%elem_of_seq. cbn.
    apply percentage_range. lia.
  - by rewrite length_fmap, length_seq.
  - intros Hn ->. destruct n as [|n]; [lia|].
    rewrite seq_S, fmap_app. cbn [fmap list_fmap].
    rewrite last_snoc. eexists. split; [done|].
    cbn [Nat.add]. field.
    change 0%Q with (inject_Z 0). rewrite inject_Z_injective. lia.
Qed.

Lemma gui_progress_percentages_witness :
  Forall (fun v => (0 < v <= 100)%Q)
    (fold_left (fun w i => gui_update_progress (S i) 4 w) (seq 0 4) [])
  /\ length (fold_left (fun w i => gui_update_progress (S i) 4 w) (seq 0 4) [])
     = 4%nat
  /\ ((0 < 4)%nat -> 4%nat = 4%nat ->
      exists v,
        last (fold_left (fun w i => gui_update_progress (S i) 4 w)
                (seq 0 4) []) = Some v
        /\ (v == 100)%Q).
Proof. apply (gui_progress_percentages 4 4). lia. Defined.

(** ** Tooltips *)

Lemma filter_other_windows (w : nat) (others : list nat) :
  w ∉ others -> filter (fun w' => w' <> w) (w :: others) = others.
Proof.
  intros Hw. rewrite filter_cons, decide_False by (intros Hne; by apply Hne).
  induction others as [|o others IH]; [done|].
  rewrite filter_cons, decide_True by (intros ->; apply Hw; by left).
  f_equal. apply IH. intros Hin. apply Hw. by right.
Qed.

Lemma handle_windows (others : list nat) (st : ToolTip * Tk) (ev : tip_event) :
  toplevels st.2 = own_window st.1 ++ others ->
  Forall (fun w => w < next_toplevel st.2)%nat (toplevels st.2) ->
  NoDup (toplevels st.2) ->
  toplevels (handle st ev).2 = own_window (handle st ev).1 ++ others
  /\ Forall (fun w => w < next_toplevel (handle st ev).2)%nat
            (toplevels (handle st ev).2)
  /\ NoDup (toplevels (handle st ev).2).
Proof.
  destruct st as [[tip] [windows next]].
  unfold handle, show_tip, hide_tip, own_window.
  cbn [tip_window toplevels next_toplevel fst snd].
  intros -> Hfresh Hnd. destruct ev, tip as [w|];
    cbn [tip_window toplevels next_toplevel fst snd app] in *.
  - done.
  - split; [done|]. split.
    + constructor; [lia|]. eapply Forall_impl; [exact Hfresh|].
      intros w Hw. cbn in Hw. lia.
    + constructor; [|done]. intros Hin. rewrite Forall_forall in Hfresh.
      specialize (Hfresh _ Hin). cbn in Hfresh. lia.
  - apply NoDup_cons in Hnd as [Hw Hnd].
    rewrite filter_other_windows by done.
    split; [done|]. split; [|done]. by inv Hfresh.
  - done.
Qed.

(** X20: whatever the sequence of enter and leave events, a tooltip has at
    most one window of its own, the one that [tip_window] names, and the
    other windows of the toolkit are left as they were; after a leave
    event it has none. *)
Theorem tooltip_windows (others : list nat) (next : nat)
    (events : list tip_event) :
  Forall (fun w => w < next)%nat others -> NoDup others ->
  let start := ({| tip_window := None |},
                {| toplevels := others; next_toplevel := next |}) in
  toplevels (fold_left handle events start).2
  = own_window (fold_left handle events start).1 ++ others
  /\ toplevels (fold_left handle (events ++ [Leave]) start).2 = others.
Proof.
  intros Hfresh Hnd start.
  assert (forall evs st,
            toplevels st.2 = own_window st.1 ++ others ->
            Forall (fun w => w < next_toplevel st.2)%nat (toplevels st.2) ->
            NoDup (toplevels st.2) ->
            toplevels (fold_left handle evs st).2
            = own_window (fold_left handle evs st).1 ++ others
            /\ Forall (fun w => w < next_toplevel (fold_left handle evs st).2)%nat
                      (toplevels (fold_left handle evs st).2)
            /\ NoDup (toplevels (fold_left handle evs st).2)) as Hinv.
  { induction evs as [|ev evs IH]; intros st H1 H2 H3; [done|].
    cbn [fold_left].
    destruct (handle_windows others st ev H1 H2 H3) as (? & ? & ?).
    by apply IH. }
  split; [by apply Hinv|].
  destruct (Hinv (events ++ [Leave]) start) as (Hwin & _); [done..|].
  rewrite Hwin, fold_left_app. cbn [fold_left handle].
  generalize (fold_left handle events start). intros st. unfold hide_tip.
  by destruct (tip_window st.1).
Qed.

Lemma tooltip_windows_witness :
  toplevels
    (fold_left handle [Enter; Enter; Leave; Enter]
       ({| tip_window := None |},
        {| toplevels := [0; 1]%nat; next_toplevel := 2 |})).2
  = own_window
      (fold_left handle [Enter; Enter; Leave; Enter]
         ({| tip_window := None |},
          {| toplevels := [0; 1]%nat; next_toplevel := 2 |})).1
    ++ [0; 1]%nat
  /\ toplevels
       (fold_left handle ([Enter; Enter; Leave; Enter] ++ [Leave])
          ({| tip_window := None |},
           {| toplevels := [0; 1]%nat; next_toplevel := 2 |})).2
     = [0; 1]%nat.
Proof.
  apply (tooltip_windows [0; 1]%nat 2 [Enter; Enter; Leave; Enter]).
  - repeat constructor.
  - by compute_done.
Defined.

(** ** Normalised and adjusted scores *)

Section ScoreFacts.
Open Scope Q_scope.

Lemma scaled_monotone lo hi s1 s2 :
  lo < hi -> s1 <= s2 ->
  (s1 - lo) / (hi - lo) * 100 <= (s2 - lo) / (hi - lo) * 100.
Proof.
  intros Hlt Hle. apply Qmult_le_compat_r; [|done].
  unfold Qdiv. apply Qmult_le_compat_r; [lra|].
  apply Qinv_le_0_compat. lra.
Qed.

(** X21: when the scores are not all equal, normalisation keeps their
    order, gives 100 to a greatest score and 0 to a least one. *)
Theorem normalize_scores_spread (scores : list Q) (lo hi : Q) :
  py_min scores = Ok lo -> py_max scores = Ok hi -> ~ hi == lo ->
  exists normalized,
    normalize_scores scores = Ok normalized
    /\ length normalized = length scores
    /\ (forall i j si sj ni nj,
          scores !! i = Some si -> scores !! j = Some sj ->
          normalized !! i = Some ni -> normalized !! j = Some nj ->
          si <= sj -> ni <= nj)
    /\ (exists i ni, scores !! i = Some hi /\ normalized !! i = Some ni
                    /\ ni == 100)
    /\ (exists j nj, scores !! j = Some lo /\ normalized !! j = Some nj
                    /\ nj == 0).
Proof.
  intros Hmin Hmax Hne.
  assert (scores <> []) as Hscores by (by intros ->).
  destruct (py_min_max_spec scores Hscores)
    as (lo' & hi' & Hmin' & Hmax' & Hlo & Hhi & Hall).
  rewrite Hmin in Hmin'. rewrite Hmax in Hmax'.
  injection Hmin' as <-. injection Hmax' as <-.
  assert (lo < hi) as Hlt.
  { rewrite Forall_forall in Hall. destruct (Hall hi Hhi) as [Hle _].
    destruct (Qlt_le_dec lo hi) as [|Hge]; [done|].
    exfalso. apply Hne. lra. }
  unfold normalize_scores. rewrite Hmin, Hmax.
  cbn [mbind result_bind mret result_ret].
  destruct (Qeq_bool hi lo) eqn:Heq; [by apply Qeq_bool_iff in Heq|].
  eexists. split; [done|]. rewrite map_fmap.
  split; [by rewrite length_fmap|]. split; [|split].
  - intros i j si sj ni nj Hi Hj. rewrite !list_lookup_fmap, Hi, Hj.
    intros [= <-] [= <-]. by apply scaled_monotone.
  - apply list_elem_of_lookup_1 in Hhi as [i Hi]. exists i. eexists.
    split; [done|]. rewrite list_lookup_fmap, Hi. split; [done|].
    field. lra.
  - apply list_elem_of_lookup_1 in Hlo as [j Hj]. exists j. eexists.
    split; [done|]. rewrite list_lookup_fmap, Hj. split; [done|].
    field. lra.
Qed.

(** X22: the bonus never lowers a similarity and raises it by 5 at most:
    every adjusted score lies between the normalised score and that score
    plus 5, and only the entries whose processed name starts with the
    query are changed. *)
Theorem prefix_bonus_at_most_5 (processed processed_query : list str)
    (scores normalized : list Q) :
  length processed = length scores ->
  normalize_scores scores = Ok normalized ->
  exists adjusted,
    adjusted_scores processed processed_query scores = Ok adjusted
    /\ length adjusted = length scores
    /\ forall i name n a,
         processed !! i = Some name -> normalized !! i = Some n ->
         adjusted !! i = Some a ->
         n <= a <= n + 5
         /\ (startswith name (join (u " ") processed_query) = false -> a = n).
Proof.
  intros Hlen Hnorm.
  rewrite (adjusted_scores_spec _ _ _ _ Hlen Hnorm).
  apply normalize_scores_in_range in Hnorm as [Hl Hrange].
  eexists. split; [done|]. split; [rewrite length_zip_with; lia|].
  intros i name n a Hname Hn. rewrite lookup_zip_with, Hname. cbn.
  rewrite Hn. cbn. intros [= <-].
  rewrite Forall_forall in Hrange.
  assert (in_range n) as [H0 H100]
    by by eapply Hrange, list_elem_of_lookup_2.
  unfold bonus. destruct (startswith name _); [|split; [lra|done]].
  split; [|done]. unfold min2.
  destruct (Qltb 100 (n + 5)) eqn:Hcap; [apply Qltb_lt in Hcap; lra|lra].
Qed.
End ScoreFacts.

Lemma normalize_scores_spread_witness :
  exists normalized,
    normalize_scores [2; 8; 5]%Q = Ok normalized
    /\ length normalized = length [2; 8; 5]%Q
    /\ (forall i j si sj ni nj,
          [2; 8; 5]%Q !! i = Some si -> [2; 8; 5]%Q !! j = Some sj ->
          normalized !! i = Some ni -> normalized !! j = Some nj ->
          (si <= sj)%Q -> (ni <= nj)%Q)
    /\ (exists i ni, [2; 8; 5]%Q !! i = Some 8%Q /\ normalized !! i = Some ni
                    /\ (ni == 100)%Q)
    /\ (exists j nj, [2; 8; 5]%Q !! j = Some 2%Q /\ normalized !! j = Some nj
                    /\ (nj == 0)%Q).
Proof.
  apply (normalize_scores_spread [2; 8; 5]%Q 2%Q 8%Q);
    [reflexivity|reflexivity|discriminate].
Defined.

Lemma prefix_bonus_at_most_5_witness :
  exists adjusted,
    adjusted_scores [u "марк черный"; u "марк"; u "файл"] [u "марк"]
      [0; 3; 6]%Q = Ok adjusted
    /\ length adjusted = length [0; 3; 6]%Q
    /\ forall i name n a,
         [u "марк черный"; u "марк"; u "файл"] !! i = Some name ->
         [0 # 6; 300 # 6; 600 # 6]%Q !! i = Some n ->
         adjusted !! i = Some a ->
         (n <= a <= n + 5)%Q
         /\ (startswith name (join (u " ") [u "марк"]) = false -> a = n).
Proof.
  apply (prefix_bonus_at_most_5 [u "марк черный"; u "марк"; u "файл"]
           [u "марк"] [0; 3; 6]%Q [0 # 6; 300 # 6; 600 # 6]%Q);
    [reflexivity|].
  vm_compute. reflexivity.
Defined.
